(** * The request pipeline of the swimming API worker (src/worker.ts)

    A shallow embedding of the Cloudflare worker: the [neverthrow]
    result chain as a state-and-error monad over the D1 store, the [zod]
    schemas as typed validators that accumulate issues, the route table
    as a finite map keyed by ["METHOD /path"], and the [fetch] boundary
    that renders the outcome and attaches the CORS headers. *)

From Stdlib Require Import QArith Ascii String DecimalString.
From Stdlib Require Import Floats.SpecFloat.
From stdpp Require Import base option list strings gmap.

Local Open Scope string_scope.
Local Open Scope list_scope.
Local Open Scope stdpp_scope.
Set Warnings "-register-all".

(** ** JavaScript numbers

    A number is an IEEE 754 binary64 value.  Values that are only
    stored, compared with zero or tested for being whole are carried as
    the rational they denote; where the source does arithmetic, the
    operation is the one of the double format, with its rounding. *)

Module Double.

Definition prec : Z := 53.
Definition emax : Z := 1024.

(** The double of an integer, rounded to nearest when it has more than
    [prec] bits. *)
Definition of_Z (z : Z) : spec_float :=
  binary_normalize prec emax z 0 false.

(** The double of a rational: the value itself when it is a binary
    fraction that the format holds, and the rounded quotient of the two
    doubles otherwise. *)
Definition of_Q (q : Q) : spec_float :=
  let k := Z.log2 (Zpos (Qden q)) in
  if (Zpos (Qden q) =? 2 ^ k)%Z
  then binary_normalize prec emax (Qnum q) (- k) false
  else SFdiv prec emax (of_Z (Qnum q)) (of_Z (Zpos (Qden q))).

(** [x * y] and [x < y]. *)
Definition mul (x y : spec_float) : spec_float := SFmul prec emax x y.
Definition lt (x y : spec_float) : bool := SFltb x y.

End Double.

(** ** Untyped JSON values

    A number is given by the rational its double denotes.  An object is
    the list of its own members in order. *)

Inductive json : Type :=
| JNull
| JBool (b : bool)
| JNum (q : Q)
| JStr (s : string)
| JArr (items : list json)
| JObj (members : list (string * json)).

(** Property read [o[key]]: [None] is JavaScript's [undefined]. *)
Fixpoint member (key : string) (o : list (string * json)) : option json :=
  match o with
  | [] => None
  | (k, v) :: rest => if String.eqb k key then Some v else member key rest
  end.

(** ** neverthrow's [Result] *)

Inductive Result (T E : Type) : Type :=
| Ok (value : T)
| Err (error : E).
Arguments Ok {T E} value.
Arguments Err {T E} error.

Definition isOk {T E} (r : Result T E) : bool :=
  match r with Ok _ => true | Err _ => false end.

(** ** The error taxonomy (./errors) *)

Module Errors.

Record ErrorRes : Type := mkError
  { name : string; message : string; status : Z }.

(** Modelled from the spec: the module ./errors is imported by
    src/worker.ts but is not among the sources; each class is taken
    from the table of section 7 (kind name, status code), with the
    message passed to the constructor.  The table gives two codes for
    NoResponse, so that one stays an argument. *)
Definition MalformedRequest (msg : string) : ErrorRes :=
  mkError "MalformedRequest" msg 400.
Definition Unauthorized (msg : string) : ErrorRes :=
  mkError "Unauthorized" msg 401.
Definition NotFound (msg : string) : ErrorRes :=
  mkError "NotFound" msg 404.
Definition NoResponse (code : Z) (msg : string) : ErrorRes :=
  mkError "NoResponse" msg code.
Definition MalformedResponse (msg : string) : ErrorRes :=
  mkError "MalformedResponse" msg 502.
Definition InternalDatabase (msg : string) : ErrorRes :=
  mkError "InternalDatabase" msg 500.

End Errors.

Abbreviation ErrorRes := Errors.ErrorRes.

(** ** HTTP messages *)

(** A response body: text, or [JSON.stringify] of a value (kept
    symbolic). *)
Inductive Body : Type :=
| BText (text : string)
| BJson (data : json).

Record Response : Type := mkResponse
  { res_body : option Body;
    res_status : Z;
    res_headers : gmap string string }.

(** [new Response(body, { status, headers })]; the status defaults to
    200. *)
Definition new_Response (body : option Body) (status : option Z)
    (headers : list (string * string)) : Response :=
  {| res_body := body;
     res_status := default 200%Z status;
     res_headers := list_to_map headers |}.

(** [response.headers.set(k, v)], the response being updated in place. *)
Definition headers_set (k v : string) (r : Response) : Response :=
  {| res_body := res_body r;
     res_status := res_status r;
     res_headers := <[k := v]> (res_headers r) |}.

(** ** What lies outside the repository

    The zod library's texts and format tests, the JavaScript runtime
    (number coercion, URL parsing, clock, rendering of thrown values),
    the identity provider reached through the global [fetch], and the
    state of the D1 database. *)

Inductive issue_code : Type :=
| invalid_type (expected : string) (received : option json)
| invalid_enum (options : list string) (received : option json)
| not_integer
| not_positive
| invalid_email
| invalid_url.

Class Platform : Type :=
  { (* zod *)
    zod_message : issue_code -> string;
    zod_is_email : string -> bool;
    zod_is_url : string -> bool;
    (* JavaScript runtime *)
    JsError : Type;
    JSON_stringify_error : JsError -> string;
    String_of_error : JsError -> string;
    js_Number : option json -> option Q;
    URL_pathname : string -> Result string JsError;
    Date_now : Z;
    (* the network: a GET of a url either rejects or gives a response
       whose [.json()] either rejects or gives a value *)
    net_get : string -> Result (Result json JsError) JsError;
    (* D1 *)
    D1Store : Type;
    (* ./errors: the status of NoResponse, 502 or 503 in section 7 of
       the spec *)
    NoResponse_status : Z }.

(** ** The typed data the schemas produce *)

Module GoogleToken.
Record t : Type := mk
  { iss : string; aud : string; sub : string;
    email : option string; email_verified : option string;
    name : option string; picture : option string;
    iat : Q; exp : Q }.
End GoogleToken.

Module Meet.
Record t : Type := mk { name : string; location : string; date : Q }.
End Meet.

Module SwimRecord.
Record t : Type := mk
  { meet_id : Q; swimmer_id : Q; event : string;
    type : string; start : string; time : Q }.
End SwimRecord.

Module Swimmer.
Record t : Type := mk { name : string; graduating_year : Q }.
End Swimmer.

Module Relay.
Record t : Type := mk
  { time : Q; relay_type : string;
    record_1_id : Q; record_2_id : Q; record_3_id : Q; record_4_id : Q }.
End Relay.

(** ** The statements sent to the database

    The texts of the template literals of src/worker.ts, line breaks and
    tabs included.  The records statement ends with the value groups,
    which are appended to its head. *)

Definition sql_get_root : string :=
"
			SELECT
			r.id,
			r.swimmer_id,
			r.event,
			r.type,
			r.time,
			r.start,
			m.name AS meet_name,
			m.location AS meet_location,
			m.date AS meet_date,
			s.name AS swimmer_name,
			s.graduating_year AS swimmer_year
			FROM records r
			JOIN meets m ON r.meet_id = m.id
			JOIN swimmers s ON r.swimmer_id = s.id
			ORDER BY m.date DESC, r.time ASC".

Definition sql_get_meets : string :=
"
			SELECT id, name, location, date
			FROM meets
			ORDER BY date DESC ".

Definition sql_post_meets : string :=
"
			INSERT INTO meets (name, location, date)
			VALUES (?, ?, ?)".

Definition sql_get_records : string :=
"
			SELECT *			
			FROM records
			ORDER BY id DESC ".

Definition sql_post_records_head : string :=
"
					INSERT INTO records
					(meet_id, swimmer_id, event, type, time, start)
					VALUES ".

Definition sql_get_swimmers : string :=
"
			SELECT id, name, graduating_year
			FROM swimmers
			ORDER BY id ASC ".

Definition sql_post_swimmers : string :=
"
				INSERT INTO swimmers
				(name, graduating_year)
				VALUES (?, ?)".

Definition sql_get_recent_meets : string :=
"
				SELECT id, name, location, date
				FROM meets
				ORDER BY date DESC
				LIMIT 5 ".

Definition sql_post_relays : string :=
"
					INSERT INTO relays
					(time, type, record_1_id, record_2_id, record_3_id, record_4_id)
					VALUES (?, ?, ?, ?, ?, ?)".

(** ** The world a request runs in, and the result chain *)

(** The statements a request causes, in order of occurrence. *)
Inductive event : Type :=
| EvFetch (url : string)
| EvRequestJson
| EvSafeParse (input : json)
| EvQuery (query : string) (binds : list json).

Definition is_query (e : event) : bool :=
  match e with EvQuery _ _ => true | _ => false end.

Section Worker.
Context `{P : Platform}.

Record World : Type := mkWorld
  { store : D1Store; trace : list event }.

Definition log (e : event) (w : World) : World :=
  {| store := store w; trace := trace w ++ [e] |}.

(** A promise settles with a value or rejects with a thrown value. *)
Definition Promise (T : Type) : Type := World -> Result T JsError * World.

(** [ResultAsync<T, ErrorRes>]. *)
Definition ResultAsync (T : Type) : Type :=
  World -> Result T ErrorRes * World.

Definition okAsync {T} (x : T) : ResultAsync T := fun w => (Ok x, w).
Definition errAsync {T} (e : ErrorRes) : ResultAsync T := fun w => (Err e, w).

Definition andThen {T U} (m : ResultAsync T) (f : T -> ResultAsync U)
    : ResultAsync U :=
  fun w =>
    match m w with
    | (Ok x, w') => f x w'
    | (Err e, w') => (Err e, w')
    end.

Definition mapAsync {T U} (m : ResultAsync T) (f : T -> U) : ResultAsync U :=
  fun w =>
    match m w with
    | (Ok x, w') => (Ok (f x), w')
    | (Err e, w') => (Err e, w')
    end.

Definition fromPromise {T} (p : Promise T) (errorFn : JsError -> ErrorRes)
    : ResultAsync T :=
  fun w =>
    match p w with
    | (Ok x, w') => (Ok x, w')
    | (Err e, w') => (Err (errorFn e), w')
    end.


Notation "m >>= f" := (andThen m f) (at level 50, left associativity).
Notation "m <&> f" := (mapAsync m f) (at level 50, left associativity).

(** ** zod: typed validators that report every issue

    The library is a dependency, not part of the repository; its
    combinators are taken with their documented behaviour, which is also
    the contract of section 4.3 of the spec: a value of the wrong type
    gives one issue at the current path, an object validates all of its
    declared keys and an array all of its elements, and the issues found
    are collected in order.  A number is any finite one; the texts of the
    issues that the schemas do not word themselves come from
    [zod_message]. *)

Inductive path_segment : Type :=
| PKey (key : string)
| PIndex (index : nat).

Record ZodIssue : Type := mkIssue
  { path : list path_segment; issue_message : string }.

(** A schema takes the value found ([None] for [undefined], as for a
    missing object key) and gives the typed data or the issues. *)
Definition ZodSchema (T : Type) : Type :=
  option json -> Result T (list ZodIssue).

Definition safeParse {T} (schema : ZodSchema T) (input : json)
    : Result T (list ZodIssue) :=
  schema (Some input).

Definition issue_here (msg : string) : list ZodIssue := [mkIssue [] msg].

Definition under (seg : path_segment) (i : ZodIssue) : ZodIssue :=
  mkIssue (seg :: path i) (issue_message i).

Definition at_path {T} (seg : path_segment) (r : Result T (list ZodIssue))
    : Result T (list ZodIssue) :=
  match r with
  | Ok x => Ok x
  | Err issues => Err (under seg <$> issues)
  end.

(** Both sides are evaluated; the issues of both are kept. *)
Definition both {A B C} (f : A -> B -> C)
    (ra : Result A (list ZodIssue)) (rb : Result B (list ZodIssue))
    : Result C (list ZodIssue) :=
  match ra, rb with
  | Ok a, Ok b => Ok (f a b)
  | Ok _, Err eb => Err eb
  | Err ea, Ok _ => Err ea
  | Err ea, Err eb => Err (ea ++ eb)
  end.

Definition issues_of {T} (r : Result T (list ZodIssue)) : list ZodIssue :=
  match r with Ok _ => [] | Err issues => issues end.

Definition z_string : ZodSchema string :=
  fun v =>
    match v with
    | Some (JStr s) => Ok s
    | _ => Err (issue_here (zod_message (invalid_type "string" v)))
    end.

Definition z_number : ZodSchema Q :=
  fun v =>
    match v with
    | Some (JNum q) => Ok q
    | _ => Err (issue_here (zod_message (invalid_type "number" v)))
    end.

(** [z.coerce.number()]: the input goes through [Number(...)] first;
    a NaN is refused. *)
Definition z_coerce_number : ZodSchema Q :=
  fun v =>
    match js_Number v with
    | Some q => Ok q
    | None => Err (issue_here (zod_message (invalid_type "number" v)))
    end.

Definition z_enum (options : list string) : ZodSchema string :=
  fun v =>
    match v with
    | Some (JStr s) =>
        if bool_decide (s ∈ options) then Ok s
        else Err (issue_here (zod_message (invalid_enum options v)))
    | _ => Err (issue_here (zod_message (invalid_enum options v)))
    end.

(** A check on data of the right type, with the text reported when it
    fails. *)
Definition check {T} (holds : T -> bool) (msg : string) (schema : ZodSchema T)
    : ZodSchema T :=
  fun v =>
    match schema v with
    | Ok x => if holds x then Ok x else Err (issue_here msg)
    | Err issues => Err issues
    end.

Definition is_integer (q : Q) : bool :=
  (Qnum q mod Zpos (Qden q) =? 0)%Z.

Definition is_positive (q : Q) : bool := negb (Qle_bool q 0).

Definition z_min (n : nat) (msg : string) : ZodSchema string -> ZodSchema string :=
  check (fun s => n <=? String.length s)%nat msg.

Definition z_int (msg : option string) : ZodSchema Q -> ZodSchema Q :=
  check is_integer (default (zod_message not_integer) msg).

Definition z_positive : ZodSchema Q -> ZodSchema Q :=
  check is_positive (zod_message not_positive).

Definition z_email : ZodSchema string -> ZodSchema string :=
  check zod_is_email (zod_message invalid_email).

Definition z_url : ZodSchema string -> ZodSchema string :=
  check zod_is_url (zod_message invalid_url).

Definition z_optional {T} (schema : ZodSchema T) : ZodSchema (option T) :=
  fun v =>
    match v with
    | None => Ok None
    | Some _ => match schema v with Ok x => Ok (Some x) | Err e => Err e end
    end.

(** Elements are validated one by one from index [i] on. *)
Fixpoint z_array_from {T} (schema : ZodSchema T) (i : nat) (items : list json)
    : Result (list T) (list ZodIssue) :=
  match items with
  | [] => Ok []
  | x :: rest =>
      both cons (at_path (PIndex i) (schema (Some x)))
                (z_array_from schema (S i) rest)
  end.

Definition z_array {T} (schema : ZodSchema T) : ZodSchema (list T) :=
  fun v =>
    match v with
    | Some (JArr items) => z_array_from schema 0 items
    | _ => Err (issue_here (zod_message (invalid_type "array" v)))
    end.

(** The shape of an object: its declared keys, each with a schema.
    Keys that are not declared are dropped. *)
Definition Shape (T : Type) : Type :=
  list (string * json) -> Result T (list ZodIssue).

Definition shape {T} (x : T) : Shape T := fun _ => Ok x.

Definition with_key {A B} (sh : Shape (A -> B)) (key : string)
    (schema : ZodSchema A) : Shape B :=
  fun o => both (fun f a => f a) (sh o) (at_path (PKey key) (schema (member key o))).

Definition z_object {T} (sh : Shape T) : ZodSchema T :=
  fun v =>
    match v with
    | Some (JObj o) => sh o
    | _ => Err (issue_here (zod_message (invalid_type "object" v)))
    end.

(** ** The schemas of src/worker.ts *)

Definition googleTokenSchema : ZodSchema GoogleToken.t :=
  z_object
    (with_key (with_key (with_key (with_key (with_key (with_key
    (with_key (with_key (with_key (shape GoogleToken.mk)
      "iss" z_string)
      "aud" z_string)
      "sub" z_string)
      "email" (z_optional (z_email z_string)))
      "email_verified" (z_optional (z_enum ["true"; "false"])))
      "name" (z_optional z_string))
      "picture" (z_optional (z_url z_string)))
      "iat" z_coerce_number)
      "exp" z_coerce_number).

Definition allowedEvents : list string :=
  [ "50_free"; "50_back"; "50_breast"; "50_fly";
    "100_free"; "100_back"; "100_breast"; "100_fly";
    "200_free"; "200_im"; "500_free" ].

Definition meetSchema : ZodSchema Meet.t :=
  z_object
    (with_key (with_key (with_key (shape Meet.mk)
      "name" (z_min 1 "Name is required" z_string))
      "location" (z_min 1 "Location is required" z_string))
      "date" (z_int (Some "Date must be an integer") z_number)).

Definition recordSchema : ZodSchema (list SwimRecord.t) :=
  z_array
    (z_object
      (with_key (with_key (with_key (with_key (with_key (with_key
      (shape SwimRecord.mk)
        "meet_id" (z_int None z_number))
        "swimmer_id" (z_int None z_number))
        "event" (z_enum allowedEvents))
        "type" (z_enum ["individual"; "relay"]))
        "start" (z_enum ["flat"; "relay"]))
        "time" (z_positive z_number))).

Definition swimmerSchema : ZodSchema Swimmer.t :=
  z_object
    (with_key (with_key (shape Swimmer.mk)
      "name" (z_min 1 "Name is required" z_string))
      "graduating_year" (z_int None z_number)).

Definition relaySchema : ZodSchema Relay.t :=
  z_object
    (with_key (with_key (with_key (with_key (with_key (with_key
    (shape Relay.mk)
      "time" (z_positive z_number))
      "relay_type" (z_enum ["200_mr"; "200_fr"; "400_fr"]))
      "record_1_id" (z_int None z_number))
      "record_2_id" (z_int None z_number))
      "record_3_id" (z_int None z_number))
      "record_4_id" (z_int None z_number)).

(** ** Helpers of src/worker.ts *)

(** [parts.join(sep)]. *)
Definition join (sep : string) (parts : list string) : string :=
  String.concat sep parts.

(** A path segment as [join] prints it: a key as it is, an index in
    decimal. *)
Definition segment_text (seg : path_segment) : string :=
  match seg with
  | PKey key => key
  | PIndex i => NilEmpty.string_of_uint (Nat.to_uint i)
  end.

Definition issue_text (i : ZodIssue) : string :=
  join "." (segment_text <$> path i) +:+ ": " +:+ issue_message i.

Definition zodErrorToHumanReadable (issues : list ZodIssue) : string :=
  join "; " (issue_text <$> issues).

Definition zodParseWith {T} (schema : ZodSchema T)
    (errFunc : string -> ErrorRes) : json -> ResultAsync T :=
  fun json w =>
    let parseResult := safeParse schema json in
    match parseResult with
    | Err error =>
        errAsync (errFunc (zodErrorToHumanReadable error)) (log (EvSafeParse json) w)
    | Ok data => okAsync data (log (EvSafeParse json) w)
    end.

(** The D1 binding: what [prepare(query).bind(...binds).all()] settles
    with on a given store, and the store it leaves.  A statement the
    engine refuses is a rejection of [all()]; [prepare] and [bind]
    themselves do not throw on the strings and numbers bound here. *)
Definition D1Database : Type :=
  D1Store -> string -> list json -> Result json JsError * D1Store.

Definition D1_all (db : D1Database) (query : string) (binds : list json)
    : Promise json :=
  fun w =>
    let '(r, s) := db (store w) query binds in
    (r, {| store := s; trace := trace w ++ [EvQuery query binds] |}).

Record env : Type := mkEnv
  { DB : D1Database; GOOGLE_CLIENT_ID : string }.

Record Request : Type := mkRequest
  { method : string;
    url : string;
    headers : gmap string string;
    (* what [request.json()] settles with *)
    body_json : Result json JsError }.

Definition request_json (request : Request) : Promise json :=
  fun w => (body_json request, log EvRequestJson w).

(** The optional arguments [errFunc] and [binds] take their defaults
    when they are [None]. *)
Definition queryDB (db : D1Database) (query : string)
    (errFunc : option (string -> ErrorRes)) (binds : option (list json))
    : ResultAsync json :=
  let errFunc :=
    default (fun e => Errors.InternalDatabase ("Failed to query database: " +:+ e))
            errFunc in
  fromPromise (D1_all db query (default [] binds))
              (fun e => errFunc (JSON_stringify_error e)).

Definition returnJSONResponse (data : json) (status : option Z) : Response :=
  new_Response (Some (BJson data)) (Some (default 200%Z status))
               [("Content-Type", "application/json")].

Definition getRequestJSON (request : Request)
    (errFunc : option (string -> ErrorRes)) : ResultAsync json :=
  let errFunc :=
    default (fun e => Errors.MalformedRequest ("Failed to parse request JSON: " +:+ e))
            errFunc in
  fromPromise (request_json request)
              (fun e => errFunc (JSON_stringify_error e)).

Definition getAndParseRequestJSON {T} (request : Request)
    (schema : ZodSchema T) (zodParseFailErrFunc : string -> ErrorRes)
    (requestJSONFailErrFunc : option (string -> ErrorRes)) : ResultAsync T :=
  let requestJSONFailErrFunc :=
    default (fun e => Errors.MalformedRequest ("Failed to parse request JSON: " +:+ e))
            requestJSONFailErrFunc in
  getRequestJSON request (Some requestJSONFailErrFunc)
    >>= zodParseWith schema zodParseFailErrFunc.

(** ** Authentication *)

(** [s.split(sep)] for a one-character separator. *)
Fixpoint split_on (sep : Ascii.ascii) (s : string) : list string :=
  match s with
  | EmptyString => [EmptyString]
  | String c rest =>
      if Ascii.eqb c sep then EmptyString :: split_on sep rest
      else match split_on sep rest with
           | piece :: pieces => String c piece :: pieces
           | [] => [String c EmptyString]
           end
  end.

(** A value placed in a template literal; [undefined] prints its name. *)
Definition template_text (v : option string) : string :=
  default "undefined" v.

(** The global [fetch]: the response is represented by what its
    [.json()] settles with. *)
Definition global_fetch (url : string) : Promise (Result json JsError) :=
  fun w => (net_get url, log (EvFetch url) w).

Definition response_json (res : Result json JsError) : Promise json :=
  fun w => (res, w).

Definition allowedEmails : list string := ["ryanyun2010@gmail.com"].

(** The last callback of [verifyAuth]: the checks on a payload of the
    right shape, in the order of the source. *)
Definition checkPayload (env : env) (payload : GoogleToken.t)
    : ResultAsync string :=
  if decide (GoogleToken.aud payload ≠ GOOGLE_CLIENT_ID env) then
    errAsync (Errors.Unauthorized "Authorization Token gave Incorrect Audience")
  else if decide (GoogleToken.email_verified payload ≠ Some "true") then
    errAsync (Errors.Unauthorized
                "Authentication Token gave an Email which could not be verified")
  else match GoogleToken.email payload with
  | None =>
    errAsync (Errors.Unauthorized
                "Authentication Token did not correspond to an Email")
  | Some email =>
  if decide (GoogleToken.iss payload ≠ "https://accounts.google.com"
             ∧ GoogleToken.iss payload ≠ "accounts.google.com") then
    errAsync (Errors.Unauthorized "Invalid token issuer")
  else if Double.lt (Double.mul (Double.of_Q (GoogleToken.exp payload))
                                (Double.of_Z 1000))
                    (Double.of_Z Date_now) then
    errAsync (Errors.Unauthorized "Token expired")
  else if decide (email ∉ allowedEmails) then
    errAsync (Errors.Unauthorized "Email is unauthorized")
  else okAsync email
  end.

Definition verifyAuth (request : Request) (env : env) : ResultAsync string :=
  let authHeader := headers request !! "Authorization" in
  if negb (from_option (String.prefix "Bearer ") false authHeader) then
    errAsync (Errors.Unauthorized "No Authorization header")
  else
    let token := (authHeader ≫= fun h => split_on " "%char h !! 1%nat) in
    fromPromise
      (global_fetch ("https://oauth2.googleapis.com/tokeninfo?id_token="
                     +:+ template_text token))
      (fun e => Errors.NoResponse NoResponse_status
         ("Failed to fetch Authentication Token info from Google: "
          +:+ String_of_error e))
    >>= (fun res =>
      fromPromise (response_json res)
        (fun e => Errors.MalformedResponse
           ("Failed to parse Authentication Token info JSON recieved from Google: "
            +:+ String_of_error e)))
    >>= zodParseWith googleTokenSchema
          (fun errMsg => Errors.MalformedResponse
             ("Recivied invalid Google token payload: " +:+ errMsg))
    >>= checkPayload env.

(** ** The route table *)

(** What a route's chain resolves with.  The table's type promises a
    [Response]; [queryDB] resolves with [any], so the result of
    [all()] can flow out where no [map] builds a response. *)
Inductive JsValue : Type :=
| VResponse (response : Response)
| VD1Result (result : json).

Definition Route : Type := Request -> env -> ResultAsync JsValue.

Definition jsonResponse (res : json) : JsValue :=
  VResponse (returnJSONResponse res None).

Definition GET_root : Route := fun _request env =>
  queryDB (DB env) sql_get_root None None <&> jsonResponse.

Definition GET_meets : Route := fun _request env =>
  queryDB (DB env) sql_get_meets None None <&> jsonResponse.

Definition POST_meets : Route := fun request env =>
  verifyAuth request env
  >>= (fun _ => getAndParseRequestJSON request meetSchema
         (fun errMsg => Errors.MalformedRequest ("Given invalid meet data: " +:+ errMsg))
         None)
  >>= (fun json =>
         queryDB (DB env) sql_post_meets
           (Some (fun e => Errors.InternalDatabase
                    ("Meet database insertion failed: " +:+ e)))
           (Some [JStr (Meet.name json); JStr (Meet.location json);
                  JNum (Meet.date json)])
         <&> VD1Result).

Definition GET_records : Route := fun _request env =>
  queryDB (DB env) sql_get_records None None <&> jsonResponse.

Definition record_group : string := "(?, ?, ?, ?, ?, ?)".

Definition record_values (record : SwimRecord.t) : list json :=
  [ JNum (SwimRecord.meet_id record);
    JNum (SwimRecord.swimmer_id record);
    JStr (SwimRecord.event record);
    JStr (SwimRecord.type record);
    JNum (SwimRecord.time record);
    JStr (SwimRecord.start record) ].

Definition POST_records : Route := fun request env =>
  verifyAuth request env
  >>= (fun _ => getAndParseRequestJSON request recordSchema
         (fun errMsg => Errors.MalformedRequest ("Given invalid record data: " +:+ errMsg))
         None)
  >>= (fun json =>
         let placeholders := join ", " ((fun _ => record_group) <$> json) in
         let values := json ≫= record_values in
         queryDB (DB env) (sql_post_records_head +:+ placeholders)
           (Some (fun e => Errors.InternalDatabase
                    ("Records database insertion failed: " +:+ e)))
           (Some values)
         <&> (fun _ => VResponse
                (new_Response (Some (BText "Records sucessfully added"))
                              (Some 201%Z) []))).

Definition GET_swimmers : Route := fun _request env =>
  queryDB (DB env) sql_get_swimmers None None <&> jsonResponse.

Definition POST_swimmers : Route := fun request env =>
  verifyAuth request env
  >>= (fun _ => getAndParseRequestJSON request swimmerSchema
         (fun errMsg => Errors.MalformedRequest ("Given invalid swimmer data: " +:+ errMsg))
         None)
  >>= (fun json =>
         queryDB (DB env) sql_post_swimmers
           (Some (fun e => Errors.InternalDatabase
                    ("Swimmers database insertion failed: " +:+ e)))
           (Some [JStr (Swimmer.name json); JNum (Swimmer.graduating_year json)])
         <&> (fun _ => VResponse
                (new_Response (Some (BText "Swimmer added")) (Some 201%Z) []))).

Definition GET_recent_meets : Route := fun _request env =>
  queryDB (DB env) sql_get_recent_meets None None <&> jsonResponse.

Definition POST_verify : Route := fun request env =>
  verifyAuth request env
  <&> (fun email => VResponse
         (new_Response
            (Some (BJson (JObj [("allowed", JBool true); ("email", JStr email)])))
            None [("Content-Type", "application/json")])).

Definition POST_relays : Route := fun request env =>
  verifyAuth request env
  >>= (fun _ => getAndParseRequestJSON request relaySchema
         (fun errMsg => Errors.MalformedRequest ("Given invalid relay data: " +:+ errMsg))
         None)
  >>= (fun json =>
         queryDB (DB env) sql_post_relays
           (Some (fun e => Errors.InternalDatabase
                    ("Relays database insertion failed: " +:+ e)))
           (Some [JNum (Relay.time json); JStr (Relay.relay_type json);
                  JNum (Relay.record_1_id json); JNum (Relay.record_2_id json);
                  JNum (Relay.record_3_id json); JNum (Relay.record_4_id json)])
         <&> (fun _ => VResponse
                (new_Response (Some (BText "Relay added")) (Some 201%Z) []))).

Definition routes : gmap string Route :=
  list_to_map
    [ ("GET /", GET_root);
      ("GET /meets", GET_meets);
      ("POST /meets", POST_meets);
      ("GET /records", GET_records);
      ("POST /records", POST_records);
      ("GET /swimmers", GET_swimmers);
      ("POST /swimmers", POST_swimmers);
      ("GET /recent_meets", GET_recent_meets);
      ("POST /verify", POST_verify);
      ("POST /relays", POST_relays) ].

(** ** Dispatch and the boundary *)

Definition dquote : string := String (Ascii.ascii_of_nat 34) EmptyString.

Definition handler (request : Request) (env : env) : ResultAsync JsValue :=
  match URL_pathname (url request) with
  | Err e =>
      errAsync (Errors.MalformedRequest ("Invalid URL: " +:+ String_of_error e))
  | Ok pathname =>
      if decide (method request = "OPTIONS") then
        okAsync (VResponse (new_Response None (Some 204%Z) []))
      else
        let key := method request +:+ " " +:+ pathname in
        let route : option Route := routes !! key in
        match route with
        | Some route => route request env
        | None =>
            errAsync (Errors.NotFound
                        ("Endpoint " +:+ dquote +:+ key +:+ dquote +:+ " not found"))
        end
  end.

(** What the exported [fetch] settles with: the response it returns, or
    the value thrown out of it. *)
Inductive Settled : Type :=
| Returned (response : Response)
| Thrown (what : string).

(** [withCors]: three [headers.set] calls on the value it is given.  A
    value that is no [Response] has no [headers], and the first call
    throws a TypeError. *)
Definition withCors (response : JsValue) : Settled :=
  match response with
  | VResponse response =>
      Returned
        (headers_set "Access-Control-Allow-Headers" "Content-Type, Authorization"
        (headers_set "Access-Control-Allow-Methods" "GET, POST, OPTIONS"
        (headers_set "Access-Control-Allow-Origin" "https://nuevaswimming.pages.dev"
           response)))
  | VD1Result _ => Thrown "TypeError"
  end.

Definition fetch (request : Request) (env : env) (w : World)
    : Settled * World :=
  match handler request env w with
  | (Ok response, w') => (withCors response, w')
  | (Err error, w') =>
      (withCors (VResponse
         (new_Response
            (Some (BText (Errors.name error +:+ ": " +:+ Errors.message error)))
            (Some (Errors.status error)) [])), w')
  end.

End Worker.

Notation "m >>= f" := (andThen m f) (at level 50, left associativity).
Notation "m <&> f" := (mapAsync m f) (at level 50, left associativity).

(** * The vocabulary of the statements

    Names for the values, tests and messages the properties below talk
    about. *)

Section Vocabulary.
Context `{P : Platform}.

(** The keys of the object literal [routes]. *)
Definition route_keys : list string :=
  [ "GET /"; "GET /meets"; "POST /meets"; "GET /records"; "POST /records";
    "GET /swimmers"; "POST /swimmers"; "GET /recent_meets"; "POST /verify";
    "POST /relays" ].

(** The answer to OPTIONS, and the error for a key that has no route. *)
Definition preflight : Response := new_Response None (Some 204%Z) [].

Definition not_found (key : string) : ErrorRes :=
  Errors.NotFound ("Endpoint " +:+ dquote +:+ key +:+ dquote +:+ " not found").

(** The paths of the routes that start with [verifyAuth]. *)
Definition write_paths : list string :=
  ["/meets"; "/records"; "/swimmers"; "/relays"; "/verify"].

(** The url [verifyAuth] fetches for an Authorization header [h]. *)
Definition tokeninfo_url (h : string) : string :=
  "https://oauth2.googleapis.com/tokeninfo?id_token="
  +:+ template_text (split_on " "%char h !! 1%nat).

Definition invalid_payload (issues : list ZodIssue) : ErrorRes :=
  Errors.MalformedResponse
    ("Recivied invalid Google token payload: " +:+ zodErrorToHumanReadable issues).

(** The six checks of section 4.2, step 6, one by one: each gives the
    message of its failure, or nothing when it passes.  What passing
    means is read off the guard of the corresponding [if]. *)
Definition audience_check (env : env) (p : GoogleToken.t) : option string :=
  if decide (GoogleToken.aud p = GOOGLE_CLIENT_ID env) then None
  else Some "Authorization Token gave Incorrect Audience".

Definition email_verified_check (p : GoogleToken.t) : option string :=
  if decide (GoogleToken.email_verified p = Some "true") then None
  else Some "Authentication Token gave an Email which could not be verified".

Definition email_present_check (p : GoogleToken.t) : option string :=
  match GoogleToken.email p with
  | Some _ => None
  | None => Some "Authentication Token did not correspond to an Email"
  end.

Definition issuer_check (p : GoogleToken.t) : option string :=
  if decide (GoogleToken.iss p = "https://accounts.google.com"
             ∨ GoogleToken.iss p = "accounts.google.com") then None
  else Some "Invalid token issuer".

(** [exp * 1000] as the source computes it, and the clock it is
    compared with. *)
Definition expiry_millis (p : GoogleToken.t) : spec_float :=
  Double.mul (Double.of_Q (GoogleToken.exp p)) (Double.of_Z 1000).

Definition clock : spec_float := Double.of_Z Date_now.

Definition expiry_check (p : GoogleToken.t) : option string :=
  if Double.lt (expiry_millis p) clock then Some "Token expired" else None.

Definition allow_list_check (p : GoogleToken.t) : option string :=
  match GoogleToken.email p with
  | Some email =>
      if decide (email ∈ allowedEmails) then None else Some "Email is unauthorized"
  | None => Some "Email is unauthorized"
  end.

Definition business_checks (env : env) : list (GoogleToken.t → option string) :=
  [ audience_check env; email_verified_check; email_present_check;
    issuer_check; expiry_check; allow_list_check ].

(** The message of the first check of the list that fails. *)
Fixpoint first_failure (checks : list (GoogleToken.t → option string))
    (p : GoogleToken.t) : option string :=
  match checks with
  | [] => None
  | c :: rest =>
      match c p with
      | Some msg => Some msg
      | None => first_failure rest p
      end
  end.

(** The result the ordered checks give: the error of the first failure,
    else the email. *)
Definition verdict (env : env) (p : GoogleToken.t) : Result string ErrorRes :=
  match first_failure (business_checks env) p with
  | Some msg => Err (Errors.Unauthorized msg)
  | None => Ok (default EmptyString (GoogleToken.email p))
  end.

(** The payload passes the four checks that come before the expiry
    check. *)
Definition reaches_expiry_check (env : env) (p : GoogleToken.t) : Prop :=
  first_failure
    [audience_check env; email_verified_check; email_present_check; issuer_check]
    p = None.

(** [part] occurs in [whole]. *)
Definition occurs_in (part whole : string) : Prop :=
  ∃ before after, whole = before +:+ part +:+ after.

Definition unparsable_body (e : JsError) : ErrorRes :=
  Errors.MalformedRequest
    ("Failed to parse request JSON: " +:+ JSON_stringify_error e).

(** The three CORS headers. *)
Definition has_cors (response : Response) : Prop :=
  res_headers response !! "Access-Control-Allow-Origin"
    = Some "https://nuevaswimming.pages.dev"
  ∧ res_headers response !! "Access-Control-Allow-Methods"
    = Some "GET, POST, OPTIONS"
  ∧ res_headers response !! "Access-Control-Allow-Headers"
    = Some "Content-Type, Authorization".

(** The world once the body has been read and validated. *)
Definition validated (body : json) (w1 : World) : World :=
  log (EvSafeParse body) (log EvRequestJson w1).

(** The statement of a batch of [n] records: [n] groups of six
    placeholders. *)
Definition records_insert (n : nat) : string :=
  sql_post_records_head +:+ join ", " (replicate n record_group).

(** The start of a line of the statement of POST /records: a line feed
    and the five tabs of the template literal. *)
Definition margin : string :=
  String "010" (String "009" (String "009" (String "009" (String "009"
    (String "009" EmptyString))))).

(** The columns of the table [records] that the statement names, and the
    field of a record that goes to each. *)
Definition record_columns : list string :=
  ["meet_id"; "swimmer_id"; "event"; "type"; "time"; "start"].

Definition column_value (column : string) (record : SwimRecord.t) : json :=
  if decide (column = "meet_id") then JNum (SwimRecord.meet_id record)
  else if decide (column = "swimmer_id") then JNum (SwimRecord.swimmer_id record)
  else if decide (column = "event") then JStr (SwimRecord.event record)
  else if decide (column = "type") then JStr (SwimRecord.type record)
  else if decide (column = "time") then JNum (SwimRecord.time record)
  else JStr (SwimRecord.start record).

Definition records_added : Response :=
  new_Response (Some (BText "Records sucessfully added")) (Some 201%Z) [].

Definition records_failed (e : JsError) : ErrorRes :=
  Errors.InternalDatabase
    ("Records database insertion failed: " +:+ JSON_stringify_error e).

Definition violations {T} (r : Result T (list ZodIssue))
    : option (list ZodIssue) :=
  match r with Ok _ => None | Err issues => Some issues end.

(** The issues the schema of a write route finds in a body, when it
    finds any; /verify reads no body. *)
Definition body_violations (pathname : string) (body : json)
    : option (list ZodIssue) :=
  if decide (pathname = "/meets") then violations (safeParse meetSchema body)
  else if decide (pathname = "/records") then violations (safeParse recordSchema body)
  else if decide (pathname = "/swimmers") then violations (safeParse swimmerSchema body)
  else if decide (pathname = "/relays") then violations (safeParse relaySchema body)
  else None.

Definition invalid_data (pathname : string) : string :=
  if decide (pathname = "/meets") then "Given invalid meet data: "
  else if decide (pathname = "/records") then "Given invalid record data: "
  else if decide (pathname = "/swimmers") then "Given invalid swimmer data: "
  else "Given invalid relay data: ".

(** ** What the schemas accept

    The constraints of the schemas of src/worker.ts, stated on the
    members of the object received. *)

(** [q] is a whole number. *)
Definition whole (q : Q) : Prop := ∃ z : Z, (q == inject_Z z)%Q.

Definition meet_of (o : list (string * json)) (m : Meet.t) : Prop :=
  member "name" o = Some (JStr (Meet.name m))
  ∧ Meet.name m ≠ EmptyString
  ∧ member "location" o = Some (JStr (Meet.location m))
  ∧ Meet.location m ≠ EmptyString
  ∧ member "date" o = Some (JNum (Meet.date m))
  ∧ whole (Meet.date m).

Definition record_of (item : json) (r : SwimRecord.t) : Prop :=
  ∃ o, item = JObj o
  ∧ member "meet_id" o = Some (JNum (SwimRecord.meet_id r))
  ∧ whole (SwimRecord.meet_id r)
  ∧ member "swimmer_id" o = Some (JNum (SwimRecord.swimmer_id r))
  ∧ whole (SwimRecord.swimmer_id r)
  ∧ member "event" o = Some (JStr (SwimRecord.event r))
  ∧ SwimRecord.event r ∈ allowedEvents
  ∧ member "type" o = Some (JStr (SwimRecord.type r))
  ∧ SwimRecord.type r ∈ ["individual"; "relay"]
  ∧ member "start" o = Some (JStr (SwimRecord.start r))
  ∧ SwimRecord.start r ∈ ["flat"; "relay"]
  ∧ member "time" o = Some (JNum (SwimRecord.time r))
  ∧ (0 < SwimRecord.time r)%Q.

Definition swimmer_of (o : list (string * json)) (s : Swimmer.t) : Prop :=
  member "name" o = Some (JStr (Swimmer.name s))
  ∧ Swimmer.name s ≠ EmptyString
  ∧ member "graduating_year" o = Some (JNum (Swimmer.graduating_year s))
  ∧ whole (Swimmer.graduating_year s).

Definition relay_of (o : list (string * json)) (r : Relay.t) : Prop :=
  member "time" o = Some (JNum (Relay.time r))
  ∧ (0 < Relay.time r)%Q
  ∧ member "relay_type" o = Some (JStr (Relay.relay_type r))
  ∧ Relay.relay_type r ∈ ["200_mr"; "200_fr"; "400_fr"]
  ∧ member "record_1_id" o = Some (JNum (Relay.record_1_id r))
  ∧ whole (Relay.record_1_id r)
  ∧ member "record_2_id" o = Some (JNum (Relay.record_2_id r))
  ∧ whole (Relay.record_2_id r)
  ∧ member "record_3_id" o = Some (JNum (Relay.record_3_id r))
  ∧ whole (Relay.record_3_id r)
  ∧ member "record_4_id" o = Some (JNum (Relay.record_4_id r))
  ∧ whole (Relay.record_4_id r).

(** An optional string member: absent, or a string that passes [ok]. *)
Definition optional_string (v : option json) (x : option string)
    (ok : string → Prop) : Prop :=
  match v with
  | None => x = None
  | Some j => ∃ s, j = JStr s ∧ x = Some s ∧ ok s
  end.

Definition token_of (o : list (string * json)) (p : GoogleToken.t) : Prop :=
  member "iss" o = Some (JStr (GoogleToken.iss p))
  ∧ member "aud" o = Some (JStr (GoogleToken.aud p))
  ∧ member "sub" o = Some (JStr (GoogleToken.sub p))
  ∧ optional_string (member "email" o) (GoogleToken.email p)
      (λ s, zod_is_email s = true)
  ∧ optional_string (member "email_verified" o) (GoogleToken.email_verified p)
      (λ s, s ∈ ["true"; "false"])
  ∧ optional_string (member "name" o) (GoogleToken.name p) (λ _, True)
  ∧ optional_string (member "picture" o) (GoogleToken.picture p)
      (λ s, zod_is_url s = true)
  ∧ js_Number (member "iat" o) = Some (GoogleToken.iat p)
  ∧ js_Number (member "exp" o) = Some (GoogleToken.exp p).

(** What [verifyAuth] asks of a payload of the right shape to give
    [email]. *)
Definition admits (env : env) (p : GoogleToken.t) (email : string) : Prop :=
  GoogleToken.aud p = GOOGLE_CLIENT_ID env
  ∧ GoogleToken.email_verified p = Some "true"
  ∧ GoogleToken.email p = Some email
  ∧ (GoogleToken.iss p = "https://accounts.google.com"
     ∨ GoogleToken.iss p = "accounts.google.com")
  ∧ Double.lt (expiry_millis p) clock = false
  ∧ email = "ryanyun2010@gmail.com".

Definition is_body_read (e : event) : bool :=
  match e with EvRequestJson => true | _ => false end.

(** [c] occurs in [s]. *)
Fixpoint has_char (c : Ascii.ascii) (s : string) : bool :=
  match s with
  | EmptyString => false
  | String a rest => Ascii.eqb a c || has_char c rest
  end.

(** HTTP whitespace: space, tab, line feed, carriage return.  A
    [Headers] object strips it from both ends of a value, so what
    [headers.get] returns neither starts nor ends with it. *)
Definition http_whitespace (c : Ascii.ascii) : bool :=
  Ascii.eqb c " " || Ascii.eqb c "009" || Ascii.eqb c "010" || Ascii.eqb c "013".

Definition starts_with_whitespace (s : string) : bool :=
  match s with
  | EmptyString => false
  | String c _ => http_whitespace c
  end.

Fixpoint ends_with_whitespace (s : string) : bool :=
  match s with
  | EmptyString => false
  | String c rest =>
      match rest with
      | EmptyString => http_whitespace c
      | String _ _ => ends_with_whitespace rest
      end
  end.

Definition header_value (v : string) : Prop :=
  starts_with_whitespace v = false ∧ ends_with_whitespace v = false.

Definition unreachable_provider (e : JsError) : ErrorRes :=
  Errors.NoResponse NoResponse_status
    ("Failed to fetch Authentication Token info from Google: "
     +:+ String_of_error e).

Definition unparsable_payload (e : JsError) : ErrorRes :=
  Errors.MalformedResponse
    ("Failed to parse Authentication Token info JSON recieved from Google: "
     +:+ String_of_error e).

(** The statement of a read route. *)
Definition select_of (pathname : string) : option string :=
  if decide (pathname = "/") then Some sql_get_root
  else if decide (pathname = "/meets") then Some sql_get_meets
  else if decide (pathname = "/records") then Some sql_get_records
  else if decide (pathname = "/swimmers") then Some sql_get_swimmers
  else if decide (pathname = "/recent_meets") then Some sql_get_recent_meets
  else None.

Definition query_failed (e : JsError) : ErrorRes :=
  Errors.InternalDatabase ("Failed to query database: " +:+ JSON_stringify_error e).

Definition cors_names : list string :=
  [ "Access-Control-Allow-Origin"; "Access-Control-Allow-Methods";
    "Access-Control-Allow-Headers" ].

(** The paths of the write routes that read a body. *)
Definition body_paths : list string :=
  ["/meets"; "/records"; "/swimmers"; "/relays"].

Definition verified (email : string) : Response :=
  new_Response
    (Some (BJson (JObj [("allowed", JBool true); ("email", JStr email)])))
    None [("Content-Type", "application/json")].

(** The error of a write route whose statement the engine refuses. *)
Definition insert_failed (what : string) (e : JsError) : ErrorRes :=
  Errors.InternalDatabase
    (what +:+ " database insertion failed: " +:+ JSON_stringify_error e).

(** The world after a validated body has led to one statement. *)
Definition inserted (db : D1Database) (query : string) (binds : list json)
    (body : json) (w1 : World) : World :=
  {| store := (db (store w1) query binds).2;
     trace := trace w1 ++ [EvRequestJson; EvSafeParse body; EvQuery query binds] |}.

(** ** The pipeline as a whole *)

(** The entries of the object literal [routes]. *)
Definition route_table : list (string * Route) :=
  [ ("GET /", GET_root);
    ("GET /meets", GET_meets);
    ("POST /meets", POST_meets);
    ("GET /records", GET_records);
    ("POST /records", POST_records);
    ("GET /swimmers", GET_swimmers);
    ("POST /swimmers", POST_swimmers);
    ("GET /recent_meets", GET_recent_meets);
    ("POST /verify", POST_verify);
    ("POST /relays", POST_relays) ].

(** The stages of a request, by the events they leave: the call to the
    provider and the validation of its answer; the reading of the body
    and its validation; one statement. *)
Definition auth_events (events : list event) : Prop :=
  events = []
  ∨ (∃ u, events = [EvFetch u])
  ∨ (∃ u j, events = [EvFetch u; EvSafeParse j]).

Definition body_events (events : list event) : Prop :=
  events = []
  ∨ events = [EvRequestJson]
  ∨ (∃ j, events = [EvRequestJson; EvSafeParse j]).

Definition query_events (events : list event) : Prop :=
  events = [] ∨ (∃ q b, events = [EvQuery q b]).

Definition pipeline_trace (events : list event) : Prop :=
  ∃ auth body query,
    events = auth ++ body ++ query
    ∧ auth_events auth ∧ body_events body ∧ query_events query.

(** [m] adds to the trace events of the form [shape]. *)
Definition traces {T} (shape : list event → Prop) (m : ResultAsync T) : Prop :=
  ∀ w, ∃ events, trace (m w).2 = trace w ++ events ∧ shape events.

(** The error kinds of ./errors with their status codes. *)
Definition error_kinds : list (string * Z) :=
  [ ("MalformedRequest", 400%Z); ("Unauthorized", 401%Z); ("NotFound", 404%Z);
    ("NoResponse", NoResponse_status); ("MalformedResponse", 502%Z);
    ("InternalDatabase", 500%Z) ].

Definition of_kind (e : ErrorRes) : Prop :=
  (Errors.name e, Errors.status e) ∈ error_kinds.

(** An outcome whose value passes [good] or whose error is of a known
    kind. *)
Definition outcome_ok {T} (good : T → Prop) (r : Result T ErrorRes) : Prop :=
  match r with Ok v => good v | Err e => of_kind e end.

Definition good_response (v : JsValue) : Prop :=
  match v with
  | VResponse response => res_status response ∈ [200%Z; 201%Z; 204%Z]
  | VD1Result _ => False
  end.

Definition statuses : list Z :=
  [200%Z; 201%Z; 204%Z; 400%Z; 401%Z; 404%Z; 500%Z; 502%Z; NoResponse_status].

(** A result that, when it fails, names at least one issue. *)
Definition nonvoid {T} (r : Result T (list ZodIssue)) : Prop := r ≠ Err [].

Definition bad_url (e : JsError) : ErrorRes :=
  Errors.MalformedRequest ("Invalid URL: " +:+ String_of_error e).

End Vocabulary.

(** ** A concrete platform, world and requests

    Used to run the worker on explicit inputs. *)

Module Demo.

Definition message (c : issue_code) : string :=
  match c with
  | invalid_type expected _ => "Expected " +:+ expected
  | invalid_enum _ _ => "Invalid enum value"
  | not_integer => "Expected integer"
  | not_positive => "Number must be greater than 0"
  | invalid_email => "Invalid email"
  | invalid_url => "Invalid url"
  end.

Fixpoint has_at (s : string) : bool :=
  match s with
  | EmptyString => false
  | String c rest => Ascii.eqb c "@"%char || has_at rest
  end.

(** [Number(v)] on numbers and on strings of decimal digits. *)
Definition number_of (v : option json) : option Q :=
  match v with
  | Some (JNum q) => Some q
  | Some (JStr s) =>
      match NilEmpty.uint_of_string s with
      | Some u => Some (inject_Z (Z.of_uint u))
      | None => None
      end
  | _ => None
  end.

(** The path of an absolute url: what follows scheme and host. *)
Definition pathname_of (u : string) : Result string string :=
  match split_on "/"%char u with
  | _ :: _ :: _ :: rest => Ok ("/" +:+ String.concat "/" rest)
  | _ => Err "TypeError: Invalid URL"
  end.

Definition client_id : string := "swim-client.apps.googleusercontent.com".

Definition claims (aud verified : string) (exp : Z) : json :=
  JObj [ ("iss", JStr "https://accounts.google.com");
         ("aud", JStr aud);
         ("sub", JStr "1234567890");
         ("email", JStr "ryanyun2010@gmail.com");
         ("email_verified", JStr verified);
         ("iat", JNum (inject_Z 1699990000));
         ("exp", JNum (inject_Z exp)) ].

Definition tokeninfo : string := "https://oauth2.googleapis.com/tokeninfo?id_token=".

(** The double just below 1700000000.001: its product with 1000 is, as a
    real number, below 1700000000001, and rounds to it. *)
Definition rounded_exp : Q := 3565158400002097 # 2097152.

Definition rounded_claims : json :=
  JObj [ ("iss", JStr "https://accounts.google.com");
         ("aud", JStr client_id);
         ("sub", JStr "1234567890");
         ("email", JStr "ryanyun2010@gmail.com");
         ("email_verified", JStr "true");
         ("iat", JNum (inject_Z 1699990000));
         ("exp", JNum rounded_exp) ].

(** The identity provider: four tokens it knows, an error object for
    the others. *)
Definition provider (u : string) : Result (Result json string) string :=
  if decide (u = tokeninfo +:+ "admin") then
    Ok (Ok (claims client_id "true" 1700003600))
  else if decide (u = tokeninfo +:+ "edge") then
    Ok (Ok (claims client_id "true" 1700000000))
  else if decide (u = tokeninfo +:+ "stranger") then
    Ok (Ok (claims "another-client" "false" 1700003600))
  else if decide (u = tokeninfo +:+ "rounded") then
    Ok (Ok rounded_claims)
  else Ok (Ok (JObj [("error_description", JStr "Invalid Value")])).

(** The store is the list of statements executed so far. *)
#[local] Instance platform : Platform :=
  {| zod_message := message;
     zod_is_email := has_at;
     zod_is_url := String.prefix "http";
     JsError := string;
     JSON_stringify_error := fun _ => "{}";
     String_of_error := fun e => e;
     js_Number := number_of;
     URL_pathname := pathname_of;
     Date_now := 1700000000000;
     net_get := provider;
     D1Store := list (string * list json);
     NoResponse_status := 502 |}.

Definition database : D1Database :=
  fun s query binds =>
    (Ok (JObj [("success", JBool true)]), s ++ [(query, binds)]).

Definition environment : env := mkEnv database client_id.

Definition start : World := mkWorld [] [].

Definition request (method path : string) (token : option string)
    (body : Result json string) : Request :=
  mkRequest method ("https://api.example" +:+ path)
    (match token with
     | Some t => {[ "Authorization" := "Bearer " +:+ t ]}
     | None => ∅
     end)
    body.

Definition meet_body (name : string) (date : Q) : json :=
  JObj [("name", JStr name); ("location", JStr "Pool"); ("date", JNum date)].

Definition record_body (time : Q) : json :=
  JObj [ ("meet_id", JNum 1); ("swimmer_id", JNum 1); ("event", JStr "50_free");
         ("type", JStr "individual"); ("start", JStr "flat"); ("time", JNum time) ].

Definition admin_email : string := "ryanyun2010@gmail.com".

(** The payload the provider gives for a token, once validated. *)
Definition payload_of (aud verified : string) (exp : Z) : GoogleToken.t :=
  GoogleToken.mk "https://accounts.google.com" aud "1234567890"
    (Some admin_email) (Some verified) None None
    (inject_Z 1699990000) (inject_Z exp).

(** The world after the admin token has been verified. *)
Definition authenticated : World :=
  mkWorld []
    [ EvFetch (tokeninfo +:+ "admin");
      EvSafeParse (claims client_id "true" 1700003600) ].

Definition two_records : json := JArr [record_body 25; record_body (51 # 2)].

Definition two_records_insert : string :=
"
					INSERT INTO records
					(meet_id, swimmer_id, event, type, time, start)
					VALUES (?, ?, ?, ?, ?, ?), (?, ?, ?, ?, ?, ?)".

Definition no_records_insert : string :=
"
					INSERT INTO records
					(meet_id, swimmer_id, event, type, time, start)
					VALUES ".

Definition two_records_values : list json :=
  [ JNum 1; JNum 1; JStr "50_free"; JStr "individual"; JNum 25; JStr "flat";
    JNum 1; JNum 1; JStr "50_free"; JStr "individual"; JNum (51 # 2); JStr "flat" ].

Definition swimmer_body : json :=
  JObj [ ("name", JStr "Ada"); ("graduating_year", JNum 2027);
         ("nickname", JStr "A") ].

Definition relay_body : json :=
  JObj [ ("time", JNum (1057 # 10)); ("relay_type", JStr "200_fr");
         ("record_1_id", JNum 11); ("record_2_id", JNum 12);
         ("record_3_id", JNum 13); ("record_4_id", JNum 14) ].

(** The provider's answer to a token it does not know. *)
Definition provider_error : list (string * json) :=
  [("error_description", JStr "Invalid Value")].

(** The same platform one millisecond later, and a request for
    /verify on it. *)
Definition later : Platform :=
  {| zod_message := message;
     zod_is_email := has_at;
     zod_is_url := String.prefix "http";
     JsError := string;
     JSON_stringify_error := fun _ => "{}";
     String_of_error := fun e => e;
     js_Number := number_of;
     URL_pathname := pathname_of;
     Date_now := 1700000000001;
     net_get := provider;
     D1Store := list (string * list json);
     NoResponse_status := 502 |}.

Definition later_environment : @env later :=
  @mkEnv later
    (fun s query binds => (Ok (JObj [("success", JBool true)]), s ++ [(query, binds)]))
    client_id.

Definition later_start : @World later := @mkWorld later [] [].

Definition later_verify (token : string) : @Request later :=
  @mkRequest later "POST" "https://api.example/verify"
    {[ "Authorization" := "Bearer " +:+ token ]} (Ok JNull).

Definition rounded_payload : GoogleToken.t :=
  GoogleToken.mk "https://accounts.google.com" client_id "1234567890"
    (Some admin_email) (Some "true") None None
    (inject_Z 1699990000) rounded_exp.

End Demo.

(** * Properties *)

Section Properties.
Context `{P : Platform}.

(** ** The route table *)

Lemma routes_lookup_None (key : string) :
  key ∉ route_keys → routes !! key = None.
Proof.
  intros Hkey. unfold routes. apply not_elem_of_list_to_map_1. exact Hkey.
Qed.

Lemma routes_POST_meets : routes !! "POST /meets" = Some POST_meets.
Proof. reflexivity. Qed.

Lemma routes_POST_records : routes !! "POST /records" = Some POST_records.
Proof. reflexivity. Qed.

Lemma routes_POST_swimmers : routes !! "POST /swimmers" = Some POST_swimmers.
Proof. reflexivity. Qed.

Lemma routes_POST_relays : routes !! "POST /relays" = Some POST_relays.
Proof. reflexivity. Qed.

Lemma routes_POST_verify : routes !! "POST /verify" = Some POST_verify.
Proof. reflexivity. Qed.

Lemma routes_dom : dom routes = list_to_set route_keys.
Proof. unfold routes. by rewrite dom_list_to_map_L. Qed.

Lemma routes_lookup_is_Some (key : string) :
  key ∈ route_keys ↔ is_Some (routes !! key).
Proof. rewrite <- elem_of_dom, routes_dom. set_solver. Qed.

(** ** Dispatch *)

Lemma handler_OPTIONS (request : Request) (env : env) (w : World) pathname :
  URL_pathname (url request) = Ok pathname →
  method request = "OPTIONS" →
  handler request env w = (Ok (VResponse preflight), w).
Proof.
  intros Hurl Hm. unfold handler. rewrite Hurl.
  destruct (decide (method request = "OPTIONS")) as [_ | Hne]; [reflexivity | done].
Qed.

Lemma handler_lookup (request : Request) (env : env) (w : World) pathname :
  URL_pathname (url request) = Ok pathname →
  method request ≠ "OPTIONS" →
  handler request env w =
    match (routes !! (method request +:+ " " +:+ pathname) : option Route) with
    | Some route => route request env w
    | None => (Err (not_found (method request +:+ " " +:+ pathname)), w)
    end.
Proof.
  intros Hurl Hm. unfold handler. rewrite Hurl.
  destruct (decide (method request = "OPTIONS")) as [He | _]; [done |].
  simpl. destruct (routes !! _); reflexivity.
Qed.

Lemma handler_POST (request : Request) (env : env) (w : World) pathname
    (route : Route) :
  method request = "POST" →
  URL_pathname (url request) = Ok pathname →
  routes !! ("POST " +:+ pathname) = Some route →
  handler request env w = route request env w.
Proof.
  intros Hm Hurl Hr.
  rewrite (handler_lookup _ _ _ pathname) by (done || by rewrite Hm).
  rewrite Hm. change ("POST" +:+ " " +:+ pathname) with ("POST " +:+ pathname).
  by rewrite Hr.
Qed.

(** The boundary on a failed chain. *)
Lemma fetch_error (request : Request) (env : env) (w w' : World) (error : ErrorRes) :
  handler request env w = (Err error, w') →
  ∃ response,
    fetch request env w = (Returned response, w')
    ∧ res_status response = Errors.status error
    ∧ res_body response
      = Some (BText (Errors.name error +:+ ": " +:+ Errors.message error)).
Proof.
  intros H. unfold fetch. rewrite H. eexists. split; [reflexivity |]. by split.
Qed.

(** C7.  Once the url of the request is parsed, dispatch is: an OPTIONS
    request is answered with an empty 204 whatever the path, and nothing
    is run (the world is as before: no call to the identity provider, no
    validation, no statement); any other request is looked up under the
    exact key [method ++ " " ++ pathname], the route found there is the
    one run, and a key that is not one of the ten of the table gives the
    NotFound error, status 404, with nothing run, whatever the headers
    and the body of the request. *)
Theorem handler_dispatch (request : Request) (env : env) (w : World)
    (pathname : string) :
  URL_pathname (url request) = Ok pathname →
  let key := method request +:+ " " +:+ pathname in
  (method request = "OPTIONS" →
     handler request env w = (Ok (VResponse preflight), w)
     ∧ res_status preflight = 204%Z ∧ res_body preflight = None)
  ∧ (method request ≠ "OPTIONS" →
     (∀ route : Route, routes !! key = Some route →
        handler request env w = route request env w)
     ∧ (key ∉ route_keys →
        handler request env w = (Err (not_found key), w)
        ∧ Errors.name (not_found key) = "NotFound"
        ∧ ∃ response,
            fetch request env w = (Returned response, w)
            ∧ res_status response = 404%Z)).
Proof.
  intros Hurl key. split.
  - intros Hm. split; [by apply (handler_OPTIONS _ _ _ pathname) | done].
  - intros Hm. split.
    + intros route Hr. rewrite (handler_lookup _ _ _ pathname) by done.
      unfold key in *. by rewrite Hr.
    + intros Hkey.
      assert (handler request env w = (Err (not_found key), w)) as Hh.
      { rewrite (handler_lookup _ _ _ pathname) by done.
        pose proof (routes_lookup_None key Hkey) as Hn.
        unfold key in *. by rewrite Hn. }
      split; [exact Hh |]. split; [reflexivity |].
      destruct (fetch_error _ _ _ _ _ Hh) as (response & Hf & Hs & _).
      exists response. split; [exact Hf | by rewrite Hs].
Qed.

(** ** Authentication *)

Lemma verifyAuth_no_bearer (request : Request) (env : env) (w : World) :
  (∀ h, headers request !! "Authorization" = Some h →
        String.prefix "Bearer " h = false) →
  verifyAuth request env w
  = (Err (Errors.Unauthorized "No Authorization header"), w).
Proof.
  intros Hh. unfold verifyAuth.
  destruct (headers request !! "Authorization") as [h |] eqn:E; simpl.
  - by rewrite (Hh h eq_refl).
  - reflexivity.
Qed.

(** C2.  A POST to one of the five write paths whose Authorization
    header is absent, or does not start with ["Bearer "], ends in
    Unauthorized("No Authorization header"), rendered with status 401;
    the world after the request is the world before it: the body was not
    read, nothing was validated, no statement reached the store. *)
Theorem write_route_without_bearer (request : Request) (env : env) (w : World)
    (pathname : string) :
  method request = "POST" →
  URL_pathname (url request) = Ok pathname →
  pathname ∈ write_paths →
  (∀ h, headers request !! "Authorization" = Some h →
        String.prefix "Bearer " h = false) →
  handler request env w
  = (Err (Errors.Unauthorized "No Authorization header"), w)
  ∧ ∃ response,
      fetch request env w = (Returned response, w)
      ∧ res_status response = 401%Z
      ∧ res_body response = Some (BText "Unauthorized: No Authorization header").
Proof.
  intros Hm Hurl Hp Hh.
  assert (handler request env w
          = (Err (Errors.Unauthorized "No Authorization header"), w)) as Hhandler.
  { unfold write_paths in Hp. rewrite !elem_of_cons, elem_of_nil in Hp.
    destruct Hp as [-> | [-> | [-> | [-> | [-> | []]]]]].
    - rewrite (handler_POST _ _ _ _ POST_meets Hm Hurl routes_POST_meets).
      unfold POST_meets, andThen. by rewrite verifyAuth_no_bearer.
    - rewrite (handler_POST _ _ _ _ POST_records Hm Hurl routes_POST_records).
      unfold POST_records, andThen. by rewrite verifyAuth_no_bearer.
    - rewrite (handler_POST _ _ _ _ POST_swimmers Hm Hurl routes_POST_swimmers).
      unfold POST_swimmers, andThen. by rewrite verifyAuth_no_bearer.
    - rewrite (handler_POST _ _ _ _ POST_relays Hm Hurl routes_POST_relays).
      unfold POST_relays, andThen. by rewrite verifyAuth_no_bearer.
    - rewrite (handler_POST _ _ _ _ POST_verify Hm Hurl routes_POST_verify).
      unfold POST_verify, mapAsync. by rewrite verifyAuth_no_bearer. }
  split; [exact Hhandler |].
  destruct (fetch_error _ _ _ _ _ Hhandler) as (response & Hf & Hs & Hb).
  exists response. by rewrite Hs, Hb.
Qed.

(** [verifyAuth] step by step, once the header carries a bearer token. *)
Lemma verifyAuth_bearer (request : Request) (env : env) (w : World) (h : string) :
  headers request !! "Authorization" = Some h →
  String.prefix "Bearer " h = true →
  let w1 := log (EvFetch (tokeninfo_url h)) w in
  verifyAuth request env w =
    match net_get (tokeninfo_url h) with
    | Err e =>
        (Err (Errors.NoResponse NoResponse_status
                ("Failed to fetch Authentication Token info from Google: "
                 +:+ String_of_error e)), w1)
    | Ok (Err e) =>
        (Err (Errors.MalformedResponse
                ("Failed to parse Authentication Token info JSON recieved from Google: "
                 +:+ String_of_error e)), w1)
    | Ok (Ok j) =>
        match safeParse googleTokenSchema j with
        | Err issues => (Err (invalid_payload issues), log (EvSafeParse j) w1)
        | Ok payload => checkPayload env payload (log (EvSafeParse j) w1)
        end
    end.
Proof.
  intros Hh Hp w1. unfold verifyAuth. rewrite Hh. simpl. rewrite Hp. simpl.
  unfold andThen, fromPromise, global_fetch, response_json, zodParseWith.
  fold (tokeninfo_url h). fold w1.
  destruct (net_get (tokeninfo_url h)) as [[j | e] | e]; try reflexivity.
  destruct (safeParse googleTokenSchema j); reflexivity.
Qed.

Lemma checkPayload_verdict (env : env) (p : GoogleToken.t) (w : World) :
  checkPayload env p w = (verdict env p, w).
Proof.
  unfold checkPayload, verdict, business_checks, first_failure,
    audience_check, email_verified_check, email_present_check,
    issuer_check, expiry_check, allow_list_check, errAsync, okAsync.
  destruct (decide (GoogleToken.aud p ≠ GOOGLE_CLIENT_ID env)) as [Ha | Ha];
    destruct (decide (GoogleToken.aud p = GOOGLE_CLIENT_ID env)) as [Ha' | Ha'];
    try done; try (by destruct Ha).
  destruct (decide (GoogleToken.email_verified p ≠ Some "true")) as [Hv | Hv];
    destruct (decide (GoogleToken.email_verified p = Some "true")) as [Hv' | Hv'];
    try done; try (by destruct Hv).
  destruct (GoogleToken.email p) as [email |]; [| done].
  destruct (decide (GoogleToken.iss p ≠ "https://accounts.google.com"
                    ∧ GoogleToken.iss p ≠ "accounts.google.com")) as [Hi | Hi];
    destruct (decide (GoogleToken.iss p = "https://accounts.google.com"
                      ∨ GoogleToken.iss p = "accounts.google.com")) as [Hi' | Hi'];
    try done.
  - exfalso. destruct Hi as [H1 H2]. by destruct Hi'.
  - unfold expiry_millis, clock.
    destruct (Double.lt _ _); [done |].
    destruct (decide (email ∉ allowedEmails)) as [He | He];
      destruct (decide (email ∈ allowedEmails)) as [He' | He'];
      try done; try (by destruct He).
  - exfalso. apply Hi. split; intros Heq; apply Hi'; auto.
Qed.

Lemma first_failure_None_email (env : env) (p : GoogleToken.t) :
  first_failure (business_checks env) p = None → is_Some (GoogleToken.email p).
Proof.
  unfold business_checks, first_failure, email_present_check.
  destruct (audience_check env p); [done |].
  destruct (email_verified_check p); [done |].
  destruct (GoogleToken.email p); [eauto | done].
Qed.

(** C3.  For a payload of the right shape, [verifyAuth] gives the error
    of the first check that fails, the checks being taken in the order
    audience, email_verified, email presence, issuer, expiry,
    allow-list, and the email when none fails.  A payload with a wrong
    audience and an email_verified other than ["true"] gets the
    audience error. *)
Theorem verifyAuth_first_failing_check (request : Request) (env : env)
    (w : World) (h : string) (j : json) (payload : GoogleToken.t) :
  headers request !! "Authorization" = Some h →
  String.prefix "Bearer " h = true →
  net_get (tokeninfo_url h) = Ok (Ok j) →
  safeParse googleTokenSchema j = Ok payload →
  let w' := log (EvSafeParse j) (log (EvFetch (tokeninfo_url h)) w) in
  (∀ msg, first_failure (business_checks env) payload = Some msg →
     verifyAuth request env w = (Err (Errors.Unauthorized msg), w'))
  ∧ (first_failure (business_checks env) payload = None →
     ∃ email, GoogleToken.email payload = Some email
              ∧ verifyAuth request env w = (Ok email, w'))
  ∧ (GoogleToken.aud payload ≠ GOOGLE_CLIENT_ID env →
     GoogleToken.email_verified payload ≠ Some "true" →
     verifyAuth request env w
     = (Err (Errors.Unauthorized "Authorization Token gave Incorrect Audience"), w')).
Proof.
  intros Hh Hp Hnet Hparse w'.
  assert (verifyAuth request env w = (verdict env payload, w')) as Hv.
  { rewrite (verifyAuth_bearer _ _ _ h Hh Hp), Hnet, Hparse.
    apply checkPayload_verdict. }
  rewrite Hv. unfold verdict. split; [| split].
  - by intros msg ->.
  - intros Hnone. destruct (first_failure_None_email _ _ Hnone) as [email He].
    exists email. by rewrite Hnone, He.
  - intros Haud _. unfold business_checks, first_failure, audience_check.
    by destruct (decide (GoogleToken.aud payload = GOOGLE_CLIENT_ID env)).
Qed.

Lemma first_failure_app (l1 l2 : list (GoogleToken.t → option string))
    (p : GoogleToken.t) :
  first_failure (l1 ++ l2) p =
    match first_failure l1 p with
    | Some msg => Some msg
    | None => first_failure l2 p
    end.
Proof.
  induction l1 as [| c l1 IH]; simpl; [reflexivity |].
  destruct (c p); [reflexivity | exact IH].
Qed.

(** C4, as the code has it.  For a payload that reaches the expiry
    check, with [exp * 1000] the product of the two doubles: when the
    product is below the clock, [verifyAuth] gives
    Unauthorized("Token expired"); when it is not, the expiry check
    passes and the result is that of the allow-list check, never the
    expiry error; a product equal to the clock is such a case. *)
Theorem expiry_check_boundary (request : Request) (env : env)
    (w : World) (h : string) (j : json) (payload : GoogleToken.t) :
  headers request !! "Authorization" = Some h →
  String.prefix "Bearer " h = true →
  net_get (tokeninfo_url h) = Ok (Ok j) →
  safeParse googleTokenSchema j = Ok payload →
  reaches_expiry_check env payload →
  let w' := log (EvSafeParse j) (log (EvFetch (tokeninfo_url h)) w) in
  let product :=
    Double.mul (Double.of_Q (GoogleToken.exp payload)) (Double.of_Z 1000) in
  let now := Double.of_Z Date_now in
  (SFltb product now = true →
     verifyAuth request env w = (Err (Errors.Unauthorized "Token expired"), w'))
  ∧ (SFltb product now = false →
     verifyAuth request env w
     = (match allow_list_check payload with
        | Some msg => Err (Errors.Unauthorized msg)
        | None => Ok (default EmptyString (GoogleToken.email payload))
        end, w')
     ∧ verifyAuth request env w ≠ (Err (Errors.Unauthorized "Token expired"), w'))
  ∧ (SFcompare product now = Some Eq →
     verifyAuth request env w ≠ (Err (Errors.Unauthorized "Token expired"), w')).
Proof.
  intros Hh Hp Hnet Hparse Hreach w'.
  assert (verifyAuth request env w = (verdict env payload, w')) as Hv.
  { rewrite (verifyAuth_bearer _ _ _ h Hh Hp), Hnet, Hparse.
    apply checkPayload_verdict. }
  assert (first_failure (business_checks env) payload
          = match expiry_check payload with
            | Some msg => Some msg
            | None => allow_list_check payload
            end) as Hff.
  { change (business_checks env)
      with ([audience_check env; email_verified_check; email_present_check;
             issuer_check] ++ [expiry_check; allow_list_check]).
    rewrite first_failure_app. unfold reaches_expiry_check in Hreach.
    rewrite Hreach. simpl. by destruct (allow_list_check payload). }
  intros product now.
  assert (SFltb product now = false →
          match allow_list_check payload with
          | Some msg => Err (Errors.Unauthorized msg)
          | None => Ok (default EmptyString (GoogleToken.email payload))
          end ≠ (Err (Errors.Unauthorized "Token expired") : Result string ErrorRes))
    as Hallow.
  { intros _. unfold allow_list_check.
    destruct (GoogleToken.email payload) as [email |]; [| done].
    by destruct (decide (email ∈ allowedEmails)). }
  rewrite Hv. unfold verdict. rewrite Hff.
  unfold expiry_check, expiry_millis, clock, Double.lt.
  fold product. fold now.
  destruct (SFltb product now) eqn:Hlt; (split; [| split]).
  - done.
  - done.
  - intros Heq. unfold SFltb in Hlt. by rewrite Heq in Hlt.
  - done.
  - intros _. split; [reflexivity |].
    intros Heq. apply (Hallow eq_refl). congruence.
  - intros _ Heq. apply (Hallow eq_refl). congruence.
Qed.

(** ** Validation *)

Lemma append_cons (a : Ascii.ascii) (s t : string) :
  String a s +:+ t = String a (s +:+ t).
Proof. reflexivity. Qed.

Lemma append_nil_r (s : string) : s +:+ EmptyString = s.
Proof.
  induction s as [| a s IH]; [reflexivity |]. by rewrite append_cons, IH.
Qed.

Lemma append_assoc (s t u : string) : (s +:+ t) +:+ u = s +:+ t +:+ u.
Proof.
  induction s as [| a s IH]; [reflexivity |]. by rewrite !append_cons, IH.
Qed.

Lemma occurs_in_refl (s : string) : occurs_in s s.
Proof. exists EmptyString, EmptyString. by rewrite append_nil_r. Qed.

Lemma occurs_in_append_r (part s t : string) :
  occurs_in part t → occurs_in part (s +:+ t).
Proof.
  intros (before & after & ->). exists (s +:+ before), after.
  by rewrite append_assoc.
Qed.

Lemma occurs_in_append_l (part s t : string) :
  occurs_in part s → occurs_in part (s +:+ t).
Proof.
  intros (before & after & ->). exists before, (after +:+ t).
  by rewrite !append_assoc.
Qed.

Lemma join_cons (sep x y : string) (rest : list string) :
  join sep (x :: y :: rest) = x +:+ sep +:+ join sep (y :: rest).
Proof. reflexivity. Qed.

(** Every part of a joined list occurs in the result. *)
Lemma join_occurs (sep : string) (parts : list string) (x : string) :
  x ∈ parts → occurs_in x (join sep parts).
Proof.
  induction parts as [| y [| z rest] IH]; intros Hx.
  - by apply elem_of_nil in Hx.
  - apply list_elem_of_singleton in Hx as ->. apply occurs_in_refl.
  - rewrite join_cons. apply elem_of_cons in Hx as [-> | Hx].
    + apply occurs_in_append_l, occurs_in_refl.
    + by apply occurs_in_append_r, occurs_in_append_r, IH.
Qed.

Lemma issues_of_both {A B C} (f : A → B → C)
    (ra : Result A (list ZodIssue)) (rb : Result B (list ZodIssue)) :
  issues_of (both f ra rb) = issues_of ra ++ issues_of rb.
Proof. destruct ra, rb; simpl; by rewrite ?app_nil_r. Qed.

Lemma issues_of_at_path {T} (seg : path_segment) (r : Result T (list ZodIssue)) :
  issues_of (at_path seg r) = under seg <$> issues_of r.
Proof. by destruct r. Qed.

(** An object reports the issues of all of its keys. *)
Lemma with_key_issues {A B} (sh : Shape (A → B)) (key : string)
    (schema : ZodSchema A) (o : list (string * json)) :
  issues_of (with_key sh key schema o)
  = issues_of (sh o) ++ (under (PKey key) <$> issues_of (schema (member key o))).
Proof. unfold with_key. by rewrite issues_of_both, issues_of_at_path. Qed.

(** An array reports the issues of all of its elements. *)
Lemma z_array_from_issues {T} (schema : ZodSchema T) (i : nat) (items : list json) :
  issues_of (z_array_from schema i items)
  = concat (imap (λ k x, under (PIndex (i + k)) <$> issues_of (schema (Some x)))
                 items).
Proof.
  revert i. induction items as [| x items IH]; intros i; [reflexivity |].
  simpl. rewrite issues_of_both, issues_of_at_path, IH, Nat.add_0_r.
  f_equal. f_equal. apply imap_ext. intros k y _. simpl.
  by rewrite Nat.add_succ_r.
Qed.

Lemma zodParseWith_eq {T} (schema : ZodSchema T) (errFunc : string → ErrorRes)
    (input : json) (w : World) :
  zodParseWith schema errFunc input w
  = (match safeParse schema input with
     | Ok data => Ok data
     | Err issues => Err (errFunc (zodErrorToHumanReadable issues))
     end, log (EvSafeParse input) w).
Proof. unfold zodParseWith. by destruct (safeParse schema input). Qed.

(** C5.  For any schema and any input the validator settles: with the
    data, or with one error, built by [errFunc] from one message.  That
    message is the texts ["<path>: <reason>"] of all the issues found,
    joined by ["; "], so that each of them occurs in it.  And the issues
    found are those of every key of an object and of every element of an
    array: validation does not stop at the first one. *)
Theorem zodParseWith_reports_every_issue {T} (schema : ZodSchema T)
    (errFunc : string → ErrorRes) (input : json) (w : World) :
  (∃ r, zodParseWith schema errFunc input w = (r, log (EvSafeParse input) w))
  ∧ (∀ data, safeParse schema input = Ok data →
       zodParseWith schema errFunc input w = (Ok data, log (EvSafeParse input) w))
  ∧ (∀ issues, safeParse schema input = Err issues →
       zodParseWith schema errFunc input w
       = (Err (errFunc (zodErrorToHumanReadable issues)), log (EvSafeParse input) w)
       ∧ zodErrorToHumanReadable issues
         = join "; "
             ((λ i, join "." (segment_text <$> path i) +:+ ": " +:+ issue_message i)
                <$> issues)
       ∧ ∀ i, i ∈ issues →
           occurs_in (join "." (segment_text <$> path i) +:+ ": " +:+ issue_message i)
                     (zodErrorToHumanReadable issues))
  ∧ (∀ (A B : Type) (sh : Shape (A → B)) (key : string) (s : ZodSchema A)
       (o : list (string * json)),
       issues_of (z_object (with_key sh key s) (Some (JObj o)))
       = issues_of (z_object sh (Some (JObj o)))
         ++ (under (PKey key) <$> issues_of (s (member key o))))
  ∧ (∀ (A : Type) (s : ZodSchema A) (items : list json),
       issues_of (z_array s (Some (JArr items)))
       = concat (imap (λ k x, under (PIndex k) <$> issues_of (s (Some x))) items)).
Proof.
  rewrite zodParseWith_eq. split; [eauto |]. split; [by intros data -> |].
  split; [| split].
  - intros issues ->. split; [reflexivity |]. split; [reflexivity |].
    intros i Hi. apply join_occurs.
    change (issue_text i ∈ issue_text <$> issues). by apply list_elem_of_fmap_2.
  - intros A B sh key s o. simpl. apply with_key_issues.
  - intros A s items. simpl. apply (z_array_from_issues s 0 items).
Qed.

(** ** What a chain leaves behind *)

Lemma filter_is_query_log (e : event) (w : World) :
  is_query e = false →
  filter is_query (trace (log e w)) = filter is_query (trace w).
Proof.
  intros He. unfold log. simpl. rewrite filter_app.
  rewrite filter_cons_False by (intros H; rewrite He in H; exact H).
  by rewrite filter_nil, app_nil_r.
Qed.

(** Authentication sends no statement and leaves the store alone. *)
Lemma verifyAuth_frame (request : Request) (env : env) (w w1 : World)
    (r : Result string ErrorRes) :
  verifyAuth request env w = (r, w1) →
  store w1 = store w
  ∧ filter is_query (trace w1) = filter is_query (trace w).
Proof.
  destruct (headers request !! "Authorization") as [h |] eqn:Hh.
  - destruct (String.prefix "Bearer " h) eqn:Hp.
    + rewrite (verifyAuth_bearer _ _ _ h Hh Hp).
      destruct (net_get (tokeninfo_url h)) as [[j | e] | e].
      * destruct (safeParse googleTokenSchema j) as [payload | issues].
        -- rewrite checkPayload_verdict. intros [= _ <-].
           by rewrite !filter_is_query_log.
        -- intros [= _ <-]. by rewrite !filter_is_query_log.
      * intros [= _ <-]. by rewrite !filter_is_query_log.
      * intros [= _ <-]. by rewrite !filter_is_query_log.
    + rewrite verifyAuth_no_bearer; [by intros [= _ <-] |].
      intros h' Hh'. rewrite Hh in Hh'. by injection Hh' as <-.
  - rewrite verifyAuth_no_bearer; [by intros [= _ <-] |].
    intros h' Hh'. by rewrite Hh in Hh'.
Qed.

Lemma getAndParseRequestJSON_eq {T} (request : Request) (schema : ZodSchema T)
    (errFunc : string → ErrorRes) (w : World) :
  getAndParseRequestJSON request schema errFunc None w =
    match body_json request with
    | Err e => (Err (unparsable_body e), log EvRequestJson w)
    | Ok body =>
        (match safeParse schema body with
         | Ok data => Ok data
         | Err issues => Err (errFunc (zodErrorToHumanReadable issues))
         end, log (EvSafeParse body) (log EvRequestJson w))
    end.
Proof.
  unfold getAndParseRequestJSON, getRequestJSON, andThen, fromPromise,
    request_json. simpl.
  destruct (body_json request) as [body | e]; [| reflexivity].
  apply zodParseWith_eq.
Qed.

Lemma queryDB_eq (db : D1Database) (query : string) (errFunc : string → ErrorRes)
    (binds : list json) (w : World) :
  queryDB db query (Some errFunc) (Some binds) w =
    (match (db (store w) query binds).1 with
     | Ok result => Ok result
     | Err e => Err (errFunc (JSON_stringify_error e))
     end,
     {| store := (db (store w) query binds).2;
        trace := trace w ++ [EvQuery query binds] |}).
Proof.
  unfold queryDB, fromPromise, D1_all. simpl.
  by destruct (db (store w) query binds) as [[result | e] s].
Qed.

Lemma withCors_response (response : Response) :
  ∃ response',
    withCors (VResponse response) = Returned response'
    ∧ res_status response' = res_status response
    ∧ res_body response' = res_body response
    ∧ has_cors response'.
Proof.
  eexists. split; [reflexivity |]. split; [reflexivity |].
  split; [reflexivity |]. unfold has_cors, headers_set. simpl.
  split; [| split].
  - rewrite lookup_insert_ne by done. rewrite lookup_insert_ne by done.
    apply lookup_insert_eq.
  - rewrite lookup_insert_ne by done. apply lookup_insert_eq.
  - apply lookup_insert_eq.
Qed.

(** The boundary on a chain that resolved with a response. *)
Lemma fetch_response (request : Request) (env : env) (w w' : World)
    (response : Response) :
  handler request env w = (Ok (VResponse response), w') →
  ∃ response',
    fetch request env w = (Returned response', w')
    ∧ res_status response' = res_status response
    ∧ res_body response' = res_body response
    ∧ has_cors response'.
Proof.
  intros H. unfold fetch. rewrite H.
  destruct (withCors_response response) as (response' & -> & ?). eauto.
Qed.

(** Whatever the boundary returns carries the three headers; on a failed
    chain it returns the rendering of the error. *)
Lemma fetch_returned_has_cors (request : Request) (env : env) (w w' : World)
    (response : Response) :
  fetch request env w = (Returned response, w') → has_cors response.
Proof.
  unfold fetch.
  destruct (handler request env w) as [[[r | d] | error] w0].
  - destruct (withCors_response r) as (r' & Hr & _ & _ & Hc).
    rewrite Hr. by intros [= <- _].
  - done.
  - match goal with |- context [withCors (VResponse ?r)] =>
      destruct (withCors_response r) as (r' & Hr & _ & _ & Hc) end.
    rewrite Hr. by intros [= <- _].
Qed.

(** ** The write routes *)

(** The chain [verifyAuth → parse → validate → k] on a body that
    validates, and on one that does not. *)
Lemma chain_valid {T U} (request : Request) (env : env) (schema : ZodSchema T)
    (errFunc : string → ErrorRes) (k : T → ResultAsync U)
    (w w1 : World) (email : string) (body : json) (data : T) :
  verifyAuth request env w = (Ok email, w1) →
  body_json request = Ok body →
  safeParse schema body = Ok data →
  (verifyAuth request env
   >>= (λ _, getAndParseRequestJSON request schema errFunc None)
   >>= k) w
  = k data (validated body w1).
Proof.
  intros Hauth Hbody Hparse. unfold andThen at 1 2. rewrite Hauth.
  by rewrite getAndParseRequestJSON_eq, Hbody, Hparse.
Qed.

Lemma chain_invalid {T U} (request : Request) (env : env) (schema : ZodSchema T)
    (errFunc : string → ErrorRes) (k : T → ResultAsync U)
    (w w1 : World) (email : string) (body : json) (issues : list ZodIssue) :
  verifyAuth request env w = (Ok email, w1) →
  body_json request = Ok body →
  safeParse schema body = Err issues →
  (verifyAuth request env
   >>= (λ _, getAndParseRequestJSON request schema errFunc None)
   >>= k) w
  = (Err (errFunc (zodErrorToHumanReadable issues)), validated body w1).
Proof.
  intros Hauth Hbody Hparse. unfold andThen at 1 2. rewrite Hauth.
  by rewrite getAndParseRequestJSON_eq, Hbody, Hparse.
Qed.

Lemma validated_frame (request : Request) (env : env) (w w1 : World)
    (r : Result string ErrorRes) (body : json) :
  verifyAuth request env w = (r, w1) →
  store (validated body w1) = store w
  ∧ filter is_query (trace (validated body w1)) = filter is_query (trace w).
Proof.
  intros Hauth. destruct (verifyAuth_frame _ _ _ _ _ Hauth) as [Hs Ht].
  unfold validated. by rewrite !filter_is_query_log.
Qed.

Lemma fmap_constant {A B} (c : B) (l : list A) :
  (λ _, c) <$> l = replicate (length l) c.
Proof. induction l as [| x l IH]; csimpl; [reflexivity | by rewrite IH]. Qed.

Lemma record_values_length (records : list SwimRecord.t) :
  length (records ≫= record_values) = 6 * length records.
Proof.
  induction records as [| r records IH]; [reflexivity |].
  rewrite bind_cons, length_app, IH. simpl. lia.
Qed.

(** Row [i] of the flattened list is the [i]-th record, column by
    column. *)
Lemma record_values_row (records : list SwimRecord.t) (i : nat)
    (record : SwimRecord.t) :
  records !! i = Some record →
  take 6 (drop (6 * i) (records ≫= record_values)) = record_values record.
Proof.
  revert i. induction records as [| r records IH]; intros i Hi; [done |].
  rewrite bind_cons. destruct i as [| i].
  - injection Hi as ->. reflexivity.
  - replace (6 * S i) with (length (record_values r) + 6 * i) by (simpl; lia).
    rewrite drop_app_add. by apply IH.
Qed.

Lemma POST_records_valid (request : Request) (env : env) (w w1 : World)
    (email : string) (body : json) (records : list SwimRecord.t) :
  verifyAuth request env w = (Ok email, w1) →
  body_json request = Ok body →
  safeParse recordSchema body = Ok records →
  let query := records_insert (length records) in
  let values := records ≫= record_values in
  let outcome := DB env (store w1) query values in
  POST_records request env w
  = (match outcome.1 with
     | Ok _ => Ok (VResponse records_added)
     | Err e => Err (records_failed e)
     end,
     {| store := outcome.2;
        trace := trace (validated body w1) ++ [EvQuery query values] |}).
Proof.
  intros Hauth Hbody Hparse query values outcome. unfold POST_records.
  rewrite (chain_valid _ _ _ _ _ _ _ _ _ _ Hauth Hbody Hparse).
  unfold mapAsync. rewrite queryDB_eq, fmap_constant. simpl.
  fold (records_insert (length records)). fold query values outcome.
  by destruct (outcome.1).
Qed.

Lemma records_insert_text (n : nat) :
  records_insert n
  = margin +:+ "INSERT INTO records"
    +:+ margin +:+ "(" +:+ String.concat ", " record_columns +:+ ")"
    +:+ margin +:+ "VALUES "
    +:+ String.concat ", " (replicate n "(?, ?, ?, ?, ?, ?)").
Proof. reflexivity. Qed.

Lemma record_values_columns (records : list SwimRecord.t) :
  records ≫= (λ record, (λ column, column_value column record) <$> record_columns)
  = records ≫= record_values.
Proof.
  induction records as [| r records IH]; [reflexivity |].
  rewrite !bind_cons, IH. reflexivity.
Qed.

(** C6.  A validated batch of [N] records posted to /records with valid
    credentials sends one statement, the only one of the request: the
    text INSERT INTO records, the column list (meet_id, swimmer_id,
    event, type, time, start), and VALUES followed by [N] groups
    ["(?, ?, ?, ?, ?, ?)"] joined by [", "].  It is bound to the [6 * N]
    values of the records, record after record, each giving the field of
    every column in the order of the column list.  When the statement
    succeeds the response has status 201. *)
Theorem post_records_one_insert (request : Request) (env : env) (w w1 : World)
    (email : string) (body : json) (records : list SwimRecord.t) :
  method request = "POST" →
  URL_pathname (url request) = Ok "/records" →
  verifyAuth request env w = (Ok email, w1) →
  body_json request = Ok body →
  safeParse recordSchema body = Ok records →
  records ≠ [] →
  let groups := replicate (length records) "(?, ?, ?, ?, ?, ?)" in
  let query :=
    margin +:+ "INSERT INTO records"
    +:+ margin +:+ "(" +:+ String.concat ", " record_columns +:+ ")"
    +:+ margin +:+ "VALUES " +:+ String.concat ", " groups in
  let values :=
    records ≫= (λ record, (λ column, column_value column record) <$> record_columns) in
  let outcome := DB env (store w1) query values in
  let w2 := {| store := outcome.2;
               trace := trace w1 ++ [EvRequestJson; EvSafeParse body;
                                     EvQuery query values] |} in
  (∃ r, handler request env w = (r, w2))
  ∧ filter is_query (trace w2) = filter is_query (trace w) ++ [EvQuery query values]
  ∧ length values = 6 * length records
  ∧ (∀ i record, records !! i = Some record →
       take 6 (drop (6 * i) values)
       = [ JNum (SwimRecord.meet_id record); JNum (SwimRecord.swimmer_id record);
           JStr (SwimRecord.event record); JStr (SwimRecord.type record);
           JNum (SwimRecord.time record); JStr (SwimRecord.start record) ])
  ∧ (∀ result, outcome.1 = Ok result →
       ∃ response,
         fetch request env w = (Returned response, w2)
         ∧ res_status response = 201%Z).
Proof.
  intros Hm Hurl Hauth Hbody Hparse _ groups query values outcome w2.
  assert (query = records_insert (length records)) as Hquery
    by (symmetry; apply records_insert_text).
  assert (values = records ≫= record_values) as Hvalues
    by apply record_values_columns.
  assert (handler request env w
          = (match outcome.1 with
             | Ok _ => Ok (VResponse records_added)
             | Err e => Err (records_failed e)
             end, w2)) as Hh.
  { rewrite (handler_POST _ _ _ _ POST_records Hm Hurl routes_POST_records).
    rewrite (POST_records_valid _ _ _ _ _ _ _ Hauth Hbody Hparse).
    unfold w2, outcome. rewrite Hquery, Hvalues.
    f_equal. unfold validated, log. simpl. by rewrite <- !app_assoc. }
  split; [eauto |]. split; [| split; [| split]].
  - destruct (verifyAuth_frame _ _ _ _ _ Hauth) as [_ Ht].
    unfold w2. simpl. rewrite filter_app, Ht. f_equal.
  - rewrite Hvalues. apply record_values_length.
  - intros i record Hi. rewrite Hvalues. by apply record_values_row.
  - intros result Hok. rewrite Hok in Hh.
    destruct (fetch_response _ _ _ _ _ Hh) as (response & Hf & Hs & _).
    exists response. by rewrite Hs.
Qed.

Lemma violations_Some {T} (r : Result T (list ZodIssue)) (issues : list ZodIssue) :
  violations r = Some issues → r = Err issues.
Proof. destruct r; simpl; [done | by intros [= ->]]. Qed.

Lemma invalid_body_handler (request : Request) (env : env) (w w1 : World)
    (email pathname : string) (body : json) (issues : list ZodIssue) :
  method request = "POST" →
  URL_pathname (url request) = Ok pathname →
  verifyAuth request env w = (Ok email, w1) →
  body_json request = Ok body →
  body_violations pathname body = Some issues →
  handler request env w
  = (Err (Errors.MalformedRequest
            (invalid_data pathname +:+ zodErrorToHumanReadable issues)),
     validated body w1).
Proof.
  intros Hm Hurl Hauth Hbody. unfold body_violations, invalid_data.
  destruct (decide (pathname = "/meets")) as [-> | _].
  { intros Hv%violations_Some.
    rewrite (handler_POST _ _ _ _ POST_meets Hm Hurl routes_POST_meets).
    unfold POST_meets.
    by rewrite (chain_invalid _ _ _ _ _ _ _ _ _ _ Hauth Hbody Hv). }
  destruct (decide (pathname = "/records")) as [-> | _].
  { intros Hv%violations_Some.
    rewrite (handler_POST _ _ _ _ POST_records Hm Hurl routes_POST_records).
    unfold POST_records.
    by rewrite (chain_invalid _ _ _ _ _ _ _ _ _ _ Hauth Hbody Hv). }
  destruct (decide (pathname = "/swimmers")) as [-> | _].
  { intros Hv%violations_Some.
    rewrite (handler_POST _ _ _ _ POST_swimmers Hm Hurl routes_POST_swimmers).
    unfold POST_swimmers.
    by rewrite (chain_invalid _ _ _ _ _ _ _ _ _ _ Hauth Hbody Hv). }
  destruct (decide (pathname = "/relays")) as [-> | _]; [| done].
  intros Hv%violations_Some.
  rewrite (handler_POST _ _ _ _ POST_relays Hm Hurl routes_POST_relays).
  unfold POST_relays.
  by rewrite (chain_invalid _ _ _ _ _ _ _ _ _ _ Hauth Hbody Hv).
Qed.

(** C8.  A POST to a write route with valid credentials whose body is
    JSON but violates the route's schema ends in a MalformedRequest
    error, status 400.  Its message is the route's prefix followed by
    the aggregated report, so the path of every violated field occurs
    in it.  No statement is sent and the store is the one before the
    request. *)
Theorem invalid_body_is_rejected (request : Request) (env : env) (w w1 : World)
    (email pathname : string) (body : json) (issues : list ZodIssue) :
  method request = "POST" →
  URL_pathname (url request) = Ok pathname →
  verifyAuth request env w = (Ok email, w1) →
  body_json request = Ok body →
  body_violations pathname body = Some issues →
  let error :=
    Errors.MalformedRequest
      (invalid_data pathname +:+ zodErrorToHumanReadable issues) in
  let w2 := validated body w1 in
  handler request env w = (Err error, w2)
  ∧ Errors.name error = "MalformedRequest"
  ∧ Errors.status error = 400%Z
  ∧ (∀ i, i ∈ issues →
       occurs_in (join "." (segment_text <$> path i)) (Errors.message error))
  ∧ store w2 = store w
  ∧ filter is_query (trace w2) = filter is_query (trace w)
  ∧ ∃ response,
      fetch request env w = (Returned response, w2)
      ∧ res_status response = 400%Z.
Proof.
  intros Hm Hurl Hauth Hbody Hv error w2.
  pose proof (invalid_body_handler _ _ _ _ _ _ _ _ Hm Hurl Hauth Hbody Hv) as Hh.
  fold error w2 in Hh.
  destruct (validated_frame _ _ _ _ _ body Hauth) as [Hs Ht].
  split; [exact Hh |]. split; [reflexivity |]. split; [reflexivity |].
  split; [| split; [exact Hs | split; [exact Ht |]]].
  - intros i Hi. simpl. apply occurs_in_append_r.
    assert (occurs_in (issue_text i) (zodErrorToHumanReadable issues)) as Ho.
    { apply join_occurs. by apply list_elem_of_fmap_2. }
    destruct Ho as (before & after & ->). unfold issue_text.
    exists before, (": " +:+ issue_message i +:+ after).
    by rewrite !append_assoc.
  - destruct (fetch_error _ _ _ _ _ Hh) as (response & Hf & Hst & _).
    exists response. by rewrite Hst.
Qed.

(** C10.  The empty array validates against the record schema.  Posted
    to /records with valid credentials it makes the handler send the
    statement INSERT INTO records (meet_id, swimmer_id, event, type,
    time, start) VALUES with no value group after VALUES and no bound
    value; the outcome is then what the engine says: 201 when it accepts
    the statement, the InternalDatabase error (500) when it rejects it,
    and in no case 400. *)
Theorem post_records_empty_batch (request : Request) (env : env) (w w1 : World)
    (email : string) :
  method request = "POST" →
  URL_pathname (url request) = Ok "/records" →
  verifyAuth request env w = (Ok email, w1) →
  body_json request = Ok (JArr []) →
  let query :=
    margin +:+ "INSERT INTO records"
    +:+ margin +:+ "(meet_id, swimmer_id, event, type, time, start)"
    +:+ margin +:+ "VALUES " in
  let outcome := DB env (store w1) query [] in
  let w2 := {| store := outcome.2;
               trace := trace w1 ++ [EvRequestJson; EvSafeParse (JArr []);
                                     EvQuery query []] |} in
  safeParse recordSchema (JArr []) = Ok []
  ∧ handler request env w
    = (match outcome.1 with
       | Ok _ => Ok (VResponse records_added)
       | Err e => Err (records_failed e)
       end, w2)
  ∧ (∀ e, Errors.name (records_failed e) = "InternalDatabase"
          ∧ Errors.status (records_failed e) = 500%Z)
  ∧ ∃ response,
      fetch request env w = (Returned response, w2)
      ∧ (res_status response = 201%Z ∨ res_status response = 500%Z)
      ∧ res_status response ≠ 400%Z.
Proof.
  intros Hm Hurl Hauth Hbody query outcome w2.
  assert (query = records_insert 0) as Hquery by reflexivity.
  assert (safeParse recordSchema (JArr []) = Ok []) as Hparse by reflexivity.
  assert (handler request env w
          = (match outcome.1 with
             | Ok _ => Ok (VResponse records_added)
             | Err e => Err (records_failed e)
             end, w2)) as Hh.
  { rewrite (handler_POST _ _ _ _ POST_records Hm Hurl routes_POST_records).
    rewrite (POST_records_valid _ _ _ _ _ _ _ Hauth Hbody Hparse).
    unfold w2, outcome. rewrite Hquery.
    f_equal. unfold validated, log. simpl. by rewrite <- !app_assoc. }
  split; [exact Hparse |]. split; [exact Hh |]. split; [done |].
  destruct (outcome.1) as [result | e].
  - destruct (fetch_response _ _ _ _ _ Hh) as (response & Hf & Hs & _).
    exists response. rewrite Hs. simpl. split; [exact Hf |]. split; [by left | done].
  - destruct (fetch_error _ _ _ _ _ Hh) as (response & Hf & Hs & _).
    exists response. rewrite Hs. simpl. split; [exact Hf |]. split; [by right | done].
Qed.

(** POST /meets on a valid body: the chain resolves with what [all()]
    gave, and the boundary throws on it. *)
Lemma POST_meets_valid (request : Request) (env : env) (w w1 : World)
    (email : string) (body : json) (meet : Meet.t) :
  method request = "POST" →
  URL_pathname (url request) = Ok "/meets" →
  verifyAuth request env w = (Ok email, w1) →
  body_json request = Ok body →
  safeParse meetSchema body = Ok meet →
  let binds := [JStr (Meet.name meet); JStr (Meet.location meet);
                JNum (Meet.date meet)] in
  let outcome := DB env (store (validated body w1)) sql_post_meets binds in
  ∀ result, outcome.1 = Ok result →
    ∃ w2, handler request env w = (Ok (VD1Result result), w2)
          ∧ fetch request env w = (Thrown "TypeError", w2).
Proof.
  intros Hm Hurl Hauth Hbody Hparse binds outcome result Hok.
  assert (handler request env w
          = (Ok (VD1Result result),
             {| store := outcome.2;
                trace := trace (validated body w1) ++ [EvQuery sql_post_meets binds] |}))
    as Hh.
  { rewrite (handler_POST _ _ _ _ POST_meets Hm Hurl routes_POST_meets).
    unfold POST_meets.
    rewrite (chain_valid _ _ _ _ _ _ _ _ _ _ Hauth Hbody Hparse).
    unfold mapAsync. rewrite queryDB_eq. fold binds outcome. by rewrite Hok. }
  eexists. split; [exact Hh |]. unfold fetch. by rewrite Hh.
Qed.

(** ** What the schemas accept *)

Lemma is_integer_whole (q : Q) : is_integer q = true ↔ whole q.
Proof.
  unfold is_integer, whole. destruct q as [n d]. simpl.
  rewrite Z.eqb_eq, Z.mod_divide by done. unfold Qeq. simpl. split.
  - intros [z ->]. exists z. lia.
  - intros [z Hz]. exists z. lia.
Qed.

Lemma is_positive_lt (q : Q) : is_positive q = true ↔ (0 < q)%Q.
Proof.
  unfold is_positive. rewrite negb_true_iff. split.
  - intros H. apply Qnot_le_lt. intros Hle.
    apply Qle_bool_iff in Hle. by rewrite Hle in H.
  - intros Hlt. destruct (Qle_bool q 0) eqn:E; [| done].
    apply Qle_bool_iff in E. by destruct (Qlt_not_le _ _ Hlt).
Qed.

Lemma min_1_nonempty (s : string) :
  (1 <=? String.length s)%nat = true ↔ s ≠ EmptyString.
Proof. destruct s; simpl; split; done. Qed.

Lemma both_Ok {A B C} (f : A → B → C) (ra : Result A (list ZodIssue))
    (rb : Result B (list ZodIssue)) (c : C) :
  both f ra rb = Ok c ↔ ∃ a b, ra = Ok a ∧ rb = Ok b ∧ c = f a b.
Proof.
  destruct ra as [a | ea], rb as [b | eb]; simpl; split;
    try (by intros (? & ? & ? & ? & ?)); try done.
  - intros [= <-]. eauto.
  - by intros (a' & b' & [= ->] & [= ->] & ->).
Qed.

Lemma at_path_Ok {T} (seg : path_segment) (r : Result T (list ZodIssue)) (x : T) :
  at_path seg r = Ok x ↔ r = Ok x.
Proof. destruct r; simpl; split; by intros [= ->] || done. Qed.

Lemma with_key_Ok {A B} (sh : Shape (A → B)) (key : string)
    (schema : ZodSchema A) (o : list (string * json)) (b : B) :
  with_key sh key schema o = Ok b
  ↔ ∃ f a, sh o = Ok f ∧ schema (member key o) = Ok a ∧ b = f a.
Proof.
  unfold with_key. rewrite both_Ok. split.
  - intros (f & a & Hf & Ha%at_path_Ok & ->). eauto.
  - intros (f & a & Hf & Ha & ->). exists f, a. by rewrite at_path_Ok.
Qed.

Lemma shape_Ok {T} (x y : T) (o : list (string * json)) :
  shape x o = Ok y ↔ y = x.
Proof. unfold shape. split; [by intros [= ->] | by intros ->]. Qed.

Lemma z_object_Ok {T} (sh : Shape T) (v : option json) (x : T) :
  z_object sh v = Ok x ↔ ∃ o, v = Some (JObj o) ∧ sh o = Ok x.
Proof.
  unfold z_object. split.
  - destruct v as [[| | | | |o] |]; try done. eauto.
  - by intros (o & -> & ->).
Qed.

Lemma z_string_Ok (v : option json) (s : string) :
  z_string v = Ok s ↔ v = Some (JStr s).
Proof.
  unfold z_string. split.
  - destruct v as [[| | | s' | |] |]; try done. by intros [= ->].
  - by intros ->.
Qed.

Lemma z_number_Ok (v : option json) (q : Q) :
  z_number v = Ok q ↔ v = Some (JNum q).
Proof.
  unfold z_number. split.
  - destruct v as [[| | q' | | |] |]; try done. by intros [= ->].
  - by intros ->.
Qed.

Lemma check_Ok {T} (holds : T → bool) (msg : string) (schema : ZodSchema T)
    (v : option json) (x : T) :
  check holds msg schema v = Ok x ↔ schema v = Ok x ∧ holds x = true.
Proof.
  unfold check. destruct (schema v) as [y | e]; [| by split; [| intros []]].
  destruct (holds y) eqn:E; split.
  - by intros [= ->].
  - by intros [[= ->] _].
  - done.
  - intros [[= ->] H]. by rewrite E in H.
Qed.

Lemma z_enum_Ok (options : list string) (v : option json) (s : string) :
  z_enum options v = Ok s ↔ v = Some (JStr s) ∧ s ∈ options.
Proof.
  unfold z_enum. split.
  - destruct v as [[| | | s' | |] |]; try done.
    destruct (bool_decide (s' ∈ options)) eqn:E; [| done].
    intros [= ->]. by apply bool_decide_eq_true in E.
  - intros [-> H]. by rewrite bool_decide_eq_true_2.
Qed.

Lemma z_optional_Ok {T} (schema : ZodSchema T) (v : option json) (x : option T) :
  z_optional schema v = Ok x
  ↔ (v = None ∧ x = None) ∨ (∃ y, is_Some v ∧ schema v = Ok y ∧ x = Some y).
Proof.
  unfold z_optional. destruct v as [j |]; split.
  - destruct (schema (Some j)) as [y | e]; [| done]. intros [= <-]. right. eauto.
  - intros [[? _] | (y & _ & -> & ->)]; done.
  - intros [= <-]. by left.
  - intros [[_ ->] | (y & [? ?] & _)]; done.
Qed.

Lemma z_array_from_Ok {T} (schema : ZodSchema T) (i : nat) (items : list json)
    (xs : list T) :
  z_array_from schema i items = Ok xs
  ↔ Forall2 (λ item x, schema (Some item) = Ok x) items xs.
Proof.
  revert i xs. induction items as [| item items IH]; intros i xs; simpl.
  - split; [intros [= <-]; constructor | by intros ->%Forall2_nil_inv_l].
  - rewrite both_Ok. split.
    + intros (x & rest & Hx%at_path_Ok & Hrest%IH & ->). by constructor.
    + intros (x & rest & -> & Hx & Hrest)%Forall2_cons_inv_l.
      exists x, rest. by rewrite at_path_Ok, IH.
Qed.

Lemma z_array_Ok {T} (schema : ZodSchema T) (v : option json) (xs : list T) :
  z_array schema v = Ok xs
  ↔ ∃ items, v = Some (JArr items)
             ∧ Forall2 (λ item x, schema (Some item) = Ok x) items xs.
Proof.
  unfold z_array. split.
  - destruct v as [[| | | | items |] |]; try done.
    intros H%z_array_from_Ok. eauto.
  - intros (items & -> & H). by apply z_array_from_Ok.
Qed.

(** Unfolds the acceptance of an object key by key, and of each key
    constraint by constraint. *)
Ltac split_shape H :=
  repeat match type of H with
  | with_key _ _ _ _ = Ok _ =>
      let f := fresh "f" in
      let a := fresh "a" in
      let Ha := fresh "Ha" in
      apply with_key_Ok in H as (f & a & H & Ha & ->)
  | shape _ _ = Ok _ => apply shape_Ok in H as ->
  end.

Ltac split_key H :=
  unfold z_min, z_int, z_positive, z_email, z_url in H;
  repeat match type of H with
  | check _ _ _ _ = Ok _ =>
      let Hc := fresh "Hc" in apply check_Ok in H as [H Hc]
  | z_string _ = Ok _ => apply z_string_Ok in H
  | z_number _ = Ok _ => apply z_number_Ok in H
  | z_enum _ _ = Ok _ =>
      let Hc := fresh "Hc" in apply z_enum_Ok in H as [H Hc]
  end.

Ltac split_keys :=
  repeat match goal with
  | H : _ (member _ _) = Ok _ |- _ => progress (split_key H)
  end;
  cbv beta in *;
  repeat match goal with
  | H : (1 <=? String.length _)%nat = true |- _ => apply min_1_nonempty in H
  | H : is_integer _ = true |- _ => apply is_integer_whole in H
  | H : is_positive _ = true |- _ => apply is_positive_lt in H
  end.

Ltac build_key :=
  unfold z_min, z_int, z_positive, z_email, z_url;
  repeat match goal with
  | |- check _ _ _ _ = Ok _ => apply check_Ok; split
  | |- z_string _ = Ok _ => by apply z_string_Ok
  | |- z_number _ = Ok _ => by apply z_number_Ok
  | |- z_enum _ _ = Ok _ => by apply z_enum_Ok
  end.

Lemma meetSchema_iff (body : json) (m : Meet.t) :
  safeParse meetSchema body = Ok m ↔ ∃ o, body = JObj o ∧ meet_of o m.
Proof.
  unfold safeParse, meetSchema, meet_of. rewrite z_object_Ok. split.
  - intros (o & [= ->] & H). exists o. split; [done |].
    split_shape H. split_keys. done.
  - intros (o & -> & Hn & Hn' & Hl & Hl' & Hd & Hd'). exists o. split; [done |].
    destruct m as [n l d]. simpl in *.
    apply with_key_Ok. exists (Meet.mk n l), d. split; [| split; [| done]].
    + apply with_key_Ok. exists (Meet.mk n), l. split; [| split; [| done]].
      * apply with_key_Ok. exists Meet.mk, n. split; [done |]. split; [| done].
        rewrite Hn. build_key. by apply min_1_nonempty.
      * rewrite Hl. build_key. by apply min_1_nonempty.
    + rewrite Hd. build_key. by apply is_integer_whole.
Qed.

(** The meet schema accepts exactly the objects with a non-empty string
    [name], a non-empty string [location] and a whole number [date];
    the data are those three members, whatever else the object holds. *)
Theorem meetSchema_accepts (body : json) (m : Meet.t) :
  safeParse meetSchema body = Ok m ↔ ∃ o, body = JObj o ∧ meet_of o m.
Proof. exact (meetSchema_iff body m). Qed.

Lemma with_key_build {A B} (sh : Shape (A → B)) (key : string)
    (schema : ZodSchema A) (o : list (string * json)) (f : A → B) (a : A) :
  sh o = Ok f → schema (member key o) = Ok a →
  with_key sh key schema o = Ok (f a).
Proof. intros Hf Ha. apply with_key_Ok. eauto. Qed.

Ltac build_shape :=
  repeat match goal with
  | |- with_key _ _ _ _ = Ok _ => apply with_key_build
  | |- shape _ _ = Ok _ => reflexivity
  | H : member ?k ?o = Some _ |- _ (member ?k ?o) = Ok _ =>
      rewrite H; build_key
  | |- (1 <=? String.length _)%nat = true => by apply min_1_nonempty
  | |- is_integer _ = true => by apply is_integer_whole
  | |- is_positive _ = true => by apply is_positive_lt
  end.

Lemma swimmerSchema_iff (body : json) (s : Swimmer.t) :
  safeParse swimmerSchema body = Ok s ↔ ∃ o, body = JObj o ∧ swimmer_of o s.
Proof.
  unfold safeParse, swimmerSchema, swimmer_of. rewrite z_object_Ok. split.
  - intros (o & [= ->] & H). exists o. split; [done |].
    split_shape H. split_keys. done.
  - intros (o & -> & H). exists o. split; [done |].
    destruct s. simpl in H. destruct_and!. build_shape.
Qed.

(** The swimmer schema accepts exactly the objects with a non-empty
    string [name] and a whole number [graduating_year]. *)
Theorem swimmerSchema_accepts (body : json) (s : Swimmer.t) :
  safeParse swimmerSchema body = Ok s ↔ ∃ o, body = JObj o ∧ swimmer_of o s.
Proof. exact (swimmerSchema_iff body s). Qed.

Lemma relaySchema_iff (body : json) (r : Relay.t) :
  safeParse relaySchema body = Ok r ↔ ∃ o, body = JObj o ∧ relay_of o r.
Proof.
  unfold safeParse, relaySchema, relay_of. rewrite z_object_Ok. split.
  - intros (o & [= ->] & H). exists o. split; [done |].
    split_shape H. split_keys. done.
  - intros (o & -> & H). exists o. split; [done |].
    destruct r. simpl in H. destruct_and!. build_shape.
Qed.

(** The relay schema accepts exactly the objects with a positive [time],
    a [relay_type] among the three kinds and four whole-number record
    ids; the ids are not looked up anywhere. *)
Theorem relaySchema_accepts (body : json) (r : Relay.t) :
  safeParse relaySchema body = Ok r ↔ ∃ o, body = JObj o ∧ relay_of o r.
Proof. exact (relaySchema_iff body r). Qed.

Lemma recordSchema_iff (body : json) (records : list SwimRecord.t) :
  safeParse recordSchema body = Ok records
  ↔ ∃ items, body = JArr items ∧ Forall2 record_of items records.
Proof.
  unfold safeParse, recordSchema. rewrite z_array_Ok. split.
  - intros (items & [= ->] & HF). exists items. split; [done |].
    eapply Forall2_impl; [exact HF |]. intros item r H. cbv beta in H.
    apply z_object_Ok in H as (o & [= ->] & H). exists o. split; [done |].
    split_shape H. split_keys. done.
  - intros (items & -> & HF). exists items. split; [done |].
    eapply Forall2_impl; [exact HF |]. intros item r (o & -> & H). cbv beta.
    apply z_object_Ok. exists o. split; [done |].
    destruct r. simpl in H. destruct_and!. build_shape.
Qed.

(** The record schema accepts exactly the arrays whose elements are
    all records: whole-number ids, an event among the eleven, a type and
    a start each among its two values, chosen independently, and a
    positive time.  The data have one record per element, in order; the
    empty array is accepted. *)
Theorem recordSchema_accepts (body : json) (records : list SwimRecord.t) :
  safeParse recordSchema body = Ok records
  ↔ ∃ items, body = JArr items ∧ Forall2 record_of items records.
Proof. exact (recordSchema_iff body records). Qed.

Lemma z_coerce_number_Ok (v : option json) (q : Q) :
  z_coerce_number v = Ok q ↔ js_Number v = Some q.
Proof.
  unfold z_coerce_number. destruct (js_Number v) as [q' |]; split;
    try done; by intros [= ->].
Qed.

Lemma z_optional_string_Ok (schema : ZodSchema string) (ok : string → Prop)
    (v : option json) (x : option string) :
  (∀ j s, schema (Some j) = Ok s ↔ j = JStr s ∧ ok s) →
  z_optional schema v = Ok x ↔ optional_string v x ok.
Proof.
  intros Hs. unfold z_optional, optional_string. destruct v as [j |].
  - destruct (schema (Some j)) as [s | e] eqn:E; split.
    + intros [= <-]. apply Hs in E as [-> Hok]. eauto.
    + intros (s' & -> & -> & Hok). assert (schema (Some (JStr s')) = Ok s') as E'
        by (by apply Hs). rewrite E in E'. by injection E' as ->.
    + done.
    + intros (s' & -> & -> & Hok). assert (schema (Some (JStr s')) = Ok s') as E'
        by (by apply Hs). by rewrite E in E'.
  - split; [by intros [= <-] | by intros ->].
Qed.

Lemma checked_string_Ok (holds : string → bool) (msg : string) (j : json)
    (s : string) :
  check holds msg z_string (Some j) = Ok s ↔ j = JStr s ∧ holds s = true.
Proof.
  rewrite check_Ok, z_string_Ok. split; [by intros [[= ->] ?] | by intros [-> ?]].
Qed.

Lemma plain_string_Ok (j : json) (s : string) :
  z_string (Some j) = Ok s ↔ j = JStr s ∧ True.
Proof. rewrite z_string_Ok. split; [by intros [= ->] | by intros [-> _]]. Qed.

Lemma enum_string_Ok (options : list string) (j : json) (s : string) :
  z_enum options (Some j) = Ok s ↔ j = JStr s ∧ s ∈ options.
Proof.
  rewrite z_enum_Ok. split; [by intros [[= ->] ?] | by intros [-> ?]].
Qed.

(** The token schema accepts exactly the objects with string [iss],
    [aud] and [sub], with [email], [email_verified], [name] and
    [picture] each absent or a string of the right form, and with [iat]
    and [exp] that [Number] turns into numbers. *)
Theorem googleTokenSchema_accepts (j : json) (p : GoogleToken.t) :
  safeParse googleTokenSchema j = Ok p ↔ ∃ o, j = JObj o ∧ token_of o p.
Proof.
  unfold safeParse, googleTokenSchema, token_of. rewrite z_object_Ok. split.
  - intros (o & [= ->] & H). exists o. split; [done |].
    split_shape H. simpl.
    apply z_coerce_number_Ok in Ha, Ha0.
    apply (z_optional_string_Ok _ _ _ _ (checked_string_Ok _ _)) in Ha1.
    apply (z_optional_string_Ok _ _ _ _ plain_string_Ok) in Ha2.
    apply (z_optional_string_Ok _ _ _ _ (enum_string_Ok _)) in Ha3.
    apply (z_optional_string_Ok _ _ _ _ (checked_string_Ok _ _)) in Ha4.
    apply z_string_Ok in Ha5, Ha6, Ha7. done.
  - intros (o & -> & H). exists o. split; [done |].
    destruct p. simpl in H. destruct_and!.
    repeat apply with_key_build; try reflexivity.
    + by apply z_string_Ok.
    + by apply z_string_Ok.
    + by apply z_string_Ok.
    + by apply (z_optional_string_Ok _ _ _ _ (checked_string_Ok _ _)).
    + by apply (z_optional_string_Ok _ _ _ _ (enum_string_Ok _)).
    + by apply (z_optional_string_Ok _ _ _ _ plain_string_Ok).
    + by apply (z_optional_string_Ok _ _ _ _ (checked_string_Ok _ _)).
    + by apply z_coerce_number_Ok.
    + by apply z_coerce_number_Ok.
Qed.

Lemma checkPayload_Ok (env : env) (p : GoogleToken.t) (w w1 : World)
    (email : string) :
  checkPayload env p w = (Ok email, w1) ↔ admits env p email ∧ w1 = w.
Proof.
  unfold checkPayload, admits, errAsync, okAsync, allowedEmails.
  destruct (decide (GoogleToken.aud p ≠ GOOGLE_CLIENT_ID env)) as [Ha | Ha].
  { split; [done | by intros [[? _] _]]. }
  apply dec_stable in Ha.
  destruct (decide (GoogleToken.email_verified p ≠ Some "true")) as [Hv | Hv].
  { split; [done | by intros [(_ & ? & _) _]]. }
  apply dec_stable in Hv.
  destruct (GoogleToken.email p) as [e |]; [| split; [done | by intros [(_ & _ & ? & _) _]]].
  destruct (decide (GoogleToken.iss p ≠ "https://accounts.google.com"
                    ∧ GoogleToken.iss p ≠ "accounts.google.com")) as [Hi | Hi].
  { split; [done |]. intros [(_ & _ & _ & [? | ?] & _) _]; by destruct Hi. }
  assert (GoogleToken.iss p = "https://accounts.google.com"
          ∨ GoogleToken.iss p = "accounts.google.com") as Hi'.
  { destruct (decide (GoogleToken.iss p = "https://accounts.google.com")); [by left |].
    destruct (decide (GoogleToken.iss p = "accounts.google.com")); [by right |].
    by destruct Hi. }
  unfold expiry_millis, clock.
  destruct (Double.lt _ _) eqn:Hlt.
  { split; [done |]. by intros [(_ & _ & _ & _ & ? & _) _]. }
  destruct (decide (e ∉ ["ryanyun2010@gmail.com"])) as [He | He].
  { split; [done |]. intros [(_ & _ & [= ->] & _ & _ & ->) _].
    exfalso. apply He. constructor. }
  apply dec_stable in He. apply list_elem_of_singleton in He as ->. split.
  - by intros [= <- <-].
  - by intros [(_ & _ & [= <-] & _) ->].
Qed.

Lemma verifyAuth_Ok (request : Request) (env : env) (w w1 : World)
    (email : string) :
  verifyAuth request env w = (Ok email, w1)
  ↔ ∃ h j payload,
      headers request !! "Authorization" = Some h
      ∧ String.prefix "Bearer " h = true
      ∧ net_get (tokeninfo_url h) = Ok (Ok j)
      ∧ safeParse googleTokenSchema j = Ok payload
      ∧ admits env payload email
      ∧ w1 = log (EvSafeParse j) (log (EvFetch (tokeninfo_url h)) w).
Proof.
  split.
  - destruct (headers request !! "Authorization") as [h |] eqn:Hh.
    2:{ rewrite verifyAuth_no_bearer; [done |]. intros h Hh'. by rewrite Hh in Hh'. }
    destruct (String.prefix "Bearer " h) eqn:Hp.
    2:{ rewrite verifyAuth_no_bearer; [done |].
        intros h' Hh'. rewrite Hh in Hh'. by injection Hh' as <-. }
    rewrite (verifyAuth_bearer _ _ _ h Hh Hp).
    destruct (net_get (tokeninfo_url h)) as [[j | e] | e] eqn:Hn; try done.
    destruct (safeParse googleTokenSchema j) as [payload | issues] eqn:Hs; [| done].
    intros [Hadm ->]%checkPayload_Ok. by exists h, j, payload.
  - intros (h & j & payload & Hh & Hp & Hn & Hs & Hadm & ->).
    rewrite (verifyAuth_bearer _ _ _ h Hh Hp), Hn, Hs. by apply checkPayload_Ok.
Qed.

(** [verifyAuth] gives an email exactly when the header carries a
    bearer token, the provider answers the token's url with a payload
    of the right shape, and that payload is for this client, verified,
    from Google, not expired and of the one allowed address; the email
    is then that address, and the world has gained the call to the
    provider and the validation, nothing else. *)
Theorem verifyAuth_accepts (request : Request) (env : env) (w w1 : World)
    (email : string) :
  verifyAuth request env w = (Ok email, w1)
  ↔ ∃ h j payload,
      headers request !! "Authorization" = Some h
      ∧ String.prefix "Bearer " h = true
      ∧ net_get (tokeninfo_url h) = Ok (Ok j)
      ∧ safeParse googleTokenSchema j = Ok payload
      ∧ admits env payload email
      ∧ w1 = log (EvSafeParse j) (log (EvFetch (tokeninfo_url h)) w).
Proof. exact (verifyAuth_Ok request env w w1 email). Qed.

(** ** More on authentication *)

Lemma filter_log (f : event → bool) (e : event) (w : World) :
  f e = false → filter f (trace (log e w)) = filter f (trace w).
Proof.
  intros He. unfold log. simpl. rewrite filter_app.
  rewrite filter_cons_False by (intros H; rewrite He in H; exact H).
  by rewrite filter_nil, app_nil_r.
Qed.

(** Authentication does not read the body of the request. *)
Lemma verifyAuth_reads_no_body (request : Request) (env : env) (w w1 : World)
    (r : Result string ErrorRes) :
  verifyAuth request env w = (r, w1) →
  filter is_body_read (trace w1) = filter is_body_read (trace w).
Proof.
  destruct (headers request !! "Authorization") as [h |] eqn:Hh.
  - destruct (String.prefix "Bearer " h) eqn:Hp.
    + rewrite (verifyAuth_bearer _ _ _ h Hh Hp).
      destruct (net_get (tokeninfo_url h)) as [[j | e] | e].
      * destruct (safeParse googleTokenSchema j) as [payload | issues].
        -- rewrite checkPayload_verdict. intros [= _ <-]. by rewrite !filter_log.
        -- intros [= _ <-]. by rewrite !filter_log.
      * intros [= _ <-]. by rewrite !filter_log.
      * intros [= _ <-]. by rewrite !filter_log.
    + rewrite verifyAuth_no_bearer; [by intros [= _ <-] |].
      intros h' Hh'. rewrite Hh in Hh'. by injection Hh' as <-.
  - rewrite verifyAuth_no_bearer; [by intros [= _ <-] |].
    intros h' Hh'. by rewrite Hh in Hh'.
Qed.

Lemma issues_of_Err {T} (r : Result T (list ZodIssue)) :
  issues_of r ≠ [] → r = Err (issues_of r).
Proof. by destruct r. Qed.

(** A required string claim that is missing, or is no string, is among
    the issues of the token schema. *)
Lemma token_claim_issue (o : list (string * json)) (key : string) :
  key ∈ ["iss"; "aud"; "sub"] →
  (∀ s, member key o ≠ Some (JStr s)) →
  mkIssue [PKey key] (zod_message (invalid_type "string" (member key o)))
  ∈ issues_of (safeParse googleTokenSchema (JObj o)).
Proof.
  intros Hkey Hno.
  assert (issues_of (z_string (member key o))
          = [mkIssue [] (zod_message (invalid_type "string" (member key o)))])
    as Hz.
  { unfold z_string. destruct (member key o) as [[| | | s | |] |]; try done.
    by destruct (Hno s). }
  unfold safeParse, googleTokenSchema. simpl. rewrite !with_key_issues.
  rewrite !elem_of_app.
  rewrite !elem_of_cons, elem_of_nil in Hkey.
  destruct Hkey as [-> | [-> | [-> | []]]]; rewrite Hz; simpl.
  - do 8 left. right. constructor.
  - do 7 left. right. constructor.
  - do 6 left. right. constructor.
Qed.

(** When the provider cannot be reached, [verifyAuth] gives NoResponse
    and validates nothing; when its answer is no JSON, or is JSON of
    the wrong shape, it gives MalformedResponse (502), in the second
    case with the aggregated report.  In particular an answer object
    without a string [iss], [aud] or [sub], as the provider's error
    object is, ends in MalformedResponse with that key in the message,
    not in Unauthorized. *)
Theorem verifyAuth_provider_failures (request : Request) (env : env)
    (w : World) (h : string) :
  headers request !! "Authorization" = Some h →
  String.prefix "Bearer " h = true →
  let w1 := log (EvFetch (tokeninfo_url h)) w in
  (∀ e, net_get (tokeninfo_url h) = Err e →
     verifyAuth request env w = (Err (unreachable_provider e), w1))
  ∧ (∀ e, net_get (tokeninfo_url h) = Ok (Err e) →
       verifyAuth request env w = (Err (unparsable_payload e), w1)
       ∧ Errors.status (unparsable_payload e) = 502%Z)
  ∧ (∀ j issues, net_get (tokeninfo_url h) = Ok (Ok j) →
       safeParse googleTokenSchema j = Err issues →
       verifyAuth request env w
       = (Err (invalid_payload issues), log (EvSafeParse j) w1)
       ∧ Errors.name (invalid_payload issues) = "MalformedResponse"
       ∧ Errors.status (invalid_payload issues) = 502%Z)
  ∧ (∀ o key, net_get (tokeninfo_url h) = Ok (Ok (JObj o)) →
       key ∈ ["iss"; "aud"; "sub"] →
       (∀ s, member key o ≠ Some (JStr s)) →
       ∃ issues,
         verifyAuth request env w
         = (Err (invalid_payload issues), log (EvSafeParse (JObj o)) w1)
         ∧ occurs_in
             (key +:+ ": " +:+ zod_message (invalid_type "string" (member key o)))
             (Errors.message (invalid_payload issues))).
Proof.
  intros Hh Hp w1. rewrite (verifyAuth_bearer _ _ _ h Hh Hp). fold w1.
  split; [by intros e -> |]. split; [by intros e -> |]. split.
  - by intros j issues -> ->.
  - intros o key -> Hkey Hno.
    pose proof (token_claim_issue o key Hkey Hno) as Hin.
    assert (safeParse googleTokenSchema (JObj o)
            = Err (issues_of (safeParse googleTokenSchema (JObj o)))) as Hs.
    { apply issues_of_Err. intros Hnil. rewrite Hnil in Hin.
      by apply elem_of_nil in Hin. }
    rewrite Hs. eexists. split; [reflexivity |].
    simpl. apply occurs_in_append_r.
    apply (join_occurs "; " _ _
             (list_elem_of_fmap_2 issue_text _ _ Hin)).
Qed.

(** For a POST to a write path, whatever error authentication ends in
    is the outcome of the request: the body is not read, no statement is
    sent, the store is as before, and the answer carries the status of
    that error. *)
Theorem auth_failure_ends_write_route (request : Request) (env : env)
    (w w1 : World) (pathname : string) (error : ErrorRes) :
  method request = "POST" →
  URL_pathname (url request) = Ok pathname →
  pathname ∈ write_paths →
  verifyAuth request env w = (Err error, w1) →
  handler request env w = (Err error, w1)
  ∧ store w1 = store w
  ∧ filter is_query (trace w1) = filter is_query (trace w)
  ∧ filter is_body_read (trace w1) = filter is_body_read (trace w)
  ∧ ∃ response,
      fetch request env w = (Returned response, w1)
      ∧ res_status response = Errors.status error
      ∧ res_body response
        = Some (BText (Errors.name error +:+ ": " +:+ Errors.message error)).
Proof.
  intros Hm Hurl Hp Hauth.
  assert (handler request env w = (Err error, w1)) as Hh.
  { unfold write_paths in Hp. rewrite !elem_of_cons, elem_of_nil in Hp.
    destruct Hp as [-> | [-> | [-> | [-> | [-> | []]]]]].
    - rewrite (handler_POST _ _ _ _ POST_meets Hm Hurl routes_POST_meets).
      unfold POST_meets, andThen. by rewrite Hauth.
    - rewrite (handler_POST _ _ _ _ POST_records Hm Hurl routes_POST_records).
      unfold POST_records, andThen. by rewrite Hauth.
    - rewrite (handler_POST _ _ _ _ POST_swimmers Hm Hurl routes_POST_swimmers).
      unfold POST_swimmers, andThen. by rewrite Hauth.
    - rewrite (handler_POST _ _ _ _ POST_relays Hm Hurl routes_POST_relays).
      unfold POST_relays, andThen. by rewrite Hauth.
    - rewrite (handler_POST _ _ _ _ POST_verify Hm Hurl routes_POST_verify).
      unfold POST_verify, mapAsync. by rewrite Hauth. }
  destruct (verifyAuth_frame _ _ _ _ _ Hauth) as [Hs Hq].
  pose proof (verifyAuth_reads_no_body _ _ _ _ _ Hauth) as Hb.
  split; [exact Hh |]. split; [exact Hs |]. split; [exact Hq |].
  split; [exact Hb |]. exact (fetch_error _ _ _ _ _ Hh).
Qed.

Lemma split_on_free (c : Ascii.ascii) (t : string) :
  has_char c t = false → split_on c t = [t].
Proof.
  induction t as [| a t IH]; simpl; [done |].
  intros [Ha Ht]%orb_false_elim. rewrite Ha. by rewrite (IH Ht).
Qed.

Lemma split_on_append (c : Ascii.ascii) (t u : string) :
  has_char c t = false →
  split_on c (t +:+ String c u) = t :: split_on c u.
Proof.
  induction t as [| a t IH]; intros Ht.
  - change (EmptyString +:+ String c u) with (String c u). simpl.
    by rewrite Ascii.eqb_refl.
  - simpl in Ht. apply orb_false_elim in Ht as [Ha Ht].
    rewrite append_cons. simpl. rewrite Ha. by rewrite (IH Ht).
Qed.

Lemma prefix_append (s t : string) : String.prefix s (s +:+ t) = true.
Proof.
  induction s as [| a s IH]; [by destruct t |].
  rewrite append_cons. simpl. by destruct (ascii_dec a a).
Qed.

Lemma tokeninfo_url_first_word (t rest : string) :
  has_char " " t = false →
  rest = EmptyString ∨ (∃ u, rest = String " " u) →
  tokeninfo_url ("Bearer " +:+ t +:+ rest)
  = "https://oauth2.googleapis.com/tokeninfo?id_token=" +:+ t.
Proof.
  intros Ht Hrest. unfold tokeninfo_url.
  change ("Bearer " +:+ t +:+ rest) with ("Bearer" +:+ String " " (t +:+ rest)).
  rewrite split_on_append by done. simpl.
  destruct Hrest as [-> | [u ->]].
  - by rewrite append_nil_r, split_on_free.
  - by rewrite split_on_append.
Qed.

(** For an Authorization value as [headers.get] returns it, without
    whitespace at either end: the token sent to the provider is what
    stands between ["Bearer "] and the next space, or the end of the
    value, anything after a second space being dropped; the value is
    never just ["Bearer "]; and the value ["Bearer"] is answered
    Unauthorized("No Authorization header") without a call to the
    provider. *)
Theorem bearer_token_is_first_word (request : Request) (env : env) (w : World)
    (h : string) :
  headers request !! "Authorization" = Some h →
  header_value h →
  (∀ t rest,
     h = "Bearer " +:+ t +:+ rest →
     has_char " " t = false →
     rest = EmptyString ∨ (∃ u, rest = String " " u) →
     tokeninfo_url h = "https://oauth2.googleapis.com/tokeninfo?id_token=" +:+ t
     ∧ ∃ events,
         trace (verifyAuth request env w).2
         = trace w
           ++ EvFetch ("https://oauth2.googleapis.com/tokeninfo?id_token=" +:+ t)
              :: events)
  ∧ h ≠ "Bearer "
  ∧ (h = "Bearer" →
     verifyAuth request env w
     = (Err (Errors.Unauthorized "No Authorization header"), w)).
Proof.
  intros Hh [_ Hend]. split; [| split].
  - intros t rest -> Ht Hrest.
    pose proof (tokeninfo_url_first_word t rest Ht Hrest) as Hurl.
    split; [exact Hurl |].
    rewrite (verifyAuth_bearer _ _ _ _ Hh (prefix_append _ _)), Hurl.
    destruct (net_get _) as [[j | e] | e]; simpl.
    + destruct (safeParse googleTokenSchema j) as [payload | issues].
      * rewrite checkPayload_verdict. simpl. rewrite <- app_assoc. eauto.
      * simpl. rewrite <- app_assoc. eauto.
    + eauto.
    + eauto.
  - intros ->. discriminate Hend.
  - intros ->. apply verifyAuth_no_bearer.
    intros h' Hh'. rewrite Hh in Hh'. by injection Hh' as <-.
Qed.

(** ** The boundary and the read routes *)

Lemma withCors_frame (response : Response) :
  ∃ response',
    withCors (VResponse response) = Returned response'
    ∧ res_status response' = res_status response
    ∧ res_body response' = res_body response
    ∧ has_cors response'
    ∧ (∀ k, k ∉ cors_names →
         res_headers response' !! k = res_headers response !! k)
    ∧ withCors (VResponse response') = Returned response'.
Proof.
  destruct (withCors_response response) as (response' & Hw & Hs & Hb & Hc).
  exists response'. split; [exact Hw |]. split; [exact Hs |].
  split; [exact Hb |]. split; [exact Hc |].
  injection Hw as <-. unfold headers_set, cors_names. simpl. split.
  - intros k Hk. rewrite !not_elem_of_cons in Hk. destruct Hk as (? & ? & ? & _).
    by rewrite !lookup_insert_ne.
  - unfold withCors, headers_set. simpl. do 2 f_equal. apply map_eq. intros k.
    rewrite !lookup_insert. by repeat case_decide.
Qed.

(** [withCors] changes the three CORS headers and nothing else: status,
    body and every other header are kept, and a second pass changes
    nothing. *)
Theorem withCors_keeps_the_rest (response : Response) :
  ∃ response',
    withCors (VResponse response) = Returned response'
    ∧ res_status response' = res_status response
    ∧ res_body response' = res_body response
    ∧ has_cors response'
    ∧ (∀ k, k ∉ cors_names →
         res_headers response' !! k = res_headers response !! k)
    ∧ withCors (VResponse response') = Returned response'.
Proof. exact (withCors_frame response). Qed.

Lemma handler_GET (request : Request) (env : env) (w : World) pathname
    (route : Route) :
  method request = "GET" →
  URL_pathname (url request) = Ok pathname →
  routes !! ("GET " +:+ pathname) = Some route →
  handler request env w = route request env w.
Proof.
  intros Hm Hurl Hr.
  rewrite (handler_lookup _ _ _ pathname) by (done || by rewrite Hm).
  rewrite Hm. change ("GET" +:+ " " +:+ pathname) with ("GET " +:+ pathname).
  by rewrite Hr.
Qed.

Lemma select_route (db : D1Database) (sql : string) (w : World) :
  (queryDB db sql None None <&> jsonResponse) w
  = (match (db (store w) sql []).1 with
     | Ok res => Ok (jsonResponse res)
     | Err e => Err (query_failed e)
     end,
     {| store := (db (store w) sql []).2;
        trace := trace w ++ [EvQuery sql []] |}).
Proof.
  unfold mapAsync, queryDB, fromPromise, D1_all. simpl.
  by destruct (db (store w) sql []) as [[res | e] s].
Qed.

Lemma handler_select (request : Request) (env : env) (w : World)
    (pathname sql : string) :
  method request = "GET" →
  URL_pathname (url request) = Ok pathname →
  select_of pathname = Some sql →
  handler request env w
  = (match (DB env (store w) sql []).1 with
     | Ok res => Ok (jsonResponse res)
     | Err e => Err (query_failed e)
     end,
     {| store := (DB env (store w) sql []).2;
        trace := trace w ++ [EvQuery sql []] |}).
Proof.
  intros Hm Hurl. unfold select_of.
  repeat case_decide; subst; intros [= <-].
  - rewrite (handler_GET _ _ _ _ GET_root Hm Hurl eq_refl). apply select_route.
  - rewrite (handler_GET _ _ _ _ GET_meets Hm Hurl eq_refl). apply select_route.
  - rewrite (handler_GET _ _ _ _ GET_records Hm Hurl eq_refl). apply select_route.
  - rewrite (handler_GET _ _ _ _ GET_swimmers Hm Hurl eq_refl). apply select_route.
  - rewrite (handler_GET _ _ _ _ GET_recent_meets Hm Hurl eq_refl).
    apply select_route.
Qed.

(** A GET of one of the five read paths needs no credentials and reads
    no body: it sends the route's SELECT, with nothing bound, and that
    is all it does.  When the engine answers, the response is 200 with
    content type application/json and, as body, the JSON text of the
    whole result of [all()]; when it refuses, the response is 500 with
    the InternalDatabase text. *)
Theorem get_route_one_select (request : Request) (env : env) (w : World)
    (pathname sql : string) :
  method request = "GET" →
  URL_pathname (url request) = Ok pathname →
  select_of pathname = Some sql →
  let outcome := DB env (store w) sql [] in
  let w1 := {| store := outcome.2; trace := trace w ++ [EvQuery sql []] |} in
  (∀ res, outcome.1 = Ok res →
     ∃ response,
       fetch request env w = (Returned response, w1)
       ∧ res_status response = 200%Z
       ∧ res_body response = Some (BJson res)
       ∧ res_headers response !! "Content-Type" = Some "application/json"
       ∧ has_cors response)
  ∧ (∀ e, outcome.1 = Err e →
       ∃ response,
         fetch request env w = (Returned response, w1)
         ∧ res_status response = 500%Z
         ∧ res_body response
           = Some (BText ("InternalDatabase: Failed to query database: "
                          +:+ JSON_stringify_error e))).
Proof.
  intros Hm Hurl Hsel outcome w1.
  pose proof (handler_select _ env w _ _ Hm Hurl Hsel) as Hh.
  fold outcome w1 in Hh. split.
  - intros res Hok. rewrite Hok in Hh.
    unfold fetch. rewrite Hh. unfold jsonResponse.
    destruct (withCors_frame (returnJSONResponse res None))
      as (response & -> & Hs & Hb & Hc & Hk & _).
    exists response. split; [done |]. rewrite Hs, Hb. split; [done |].
    split; [done |]. split; [| done].
    rewrite Hk by (by apply (bool_decide_unpack _)).
    apply lookup_insert_eq.
  - intros e Herr. rewrite Herr in Hh.
    destruct (fetch_error _ _ _ _ _ Hh) as (response & Hf & Hs & Hb).
    exists response. by rewrite Hs, Hb.
Qed.

(** ** The other write routes *)

(** POST /verify answers a verified caller with 200 and the JSON text
    of [{allowed: true, email}], the email being the allowed address;
    whatever the outcome it reads no body, sends no statement and
    leaves the store as it was. *)
Theorem post_verify_only_authenticates (request : Request) (env : env)
    (w : World) :
  method request = "POST" →
  URL_pathname (url request) = Ok "/verify" →
  (∀ email w1, verifyAuth request env w = (Ok email, w1) →
     email = "ryanyun2010@gmail.com"
     ∧ ∃ response,
         fetch request env w = (Returned response, w1)
         ∧ res_status response = 200%Z
         ∧ res_body response
           = Some (BJson (JObj [("allowed", JBool true); ("email", JStr email)]))
         ∧ res_headers response !! "Content-Type" = Some "application/json")
  ∧ store (handler request env w).2 = store w
  ∧ filter is_query (trace (handler request env w).2) = filter is_query (trace w)
  ∧ filter is_body_read (trace (handler request env w).2)
    = filter is_body_read (trace w).
Proof.
  intros Hm Hurl.
  assert (handler request env w = (verifyAuth request env <&> (λ email,
            VResponse (verified email))) w) as Hh.
  { by rewrite (handler_POST _ _ _ _ POST_verify Hm Hurl routes_POST_verify). }
  split.
  - intros email w1 Hauth. split.
    { apply verifyAuth_Ok in Hauth as (h & j & p & _ & _ & _ & _ & Hadm & _).
      by destruct Hadm as (_ & _ & _ & _ & _ & ->). }
    unfold fetch. rewrite Hh. unfold mapAsync. rewrite Hauth.
    destruct (withCors_frame (verified email))
      as (response & -> & Hs & Hb & _ & Hk & _).
    exists response. split; [done |]. rewrite Hs, Hb. split; [done |].
    split; [done |]. rewrite Hk by (by apply (bool_decide_unpack _)).
    apply lookup_insert_eq.
  - rewrite Hh. unfold mapAsync.
    destruct (verifyAuth request env w) as [r w1] eqn:Hauth.
    destruct (verifyAuth_frame _ _ _ _ _ Hauth) as [Hs Hq].
    pose proof (verifyAuth_reads_no_body _ _ _ _ _ Hauth) as Hb.
    by destruct r.
Qed.

Lemma inserted_queries (request : Request) (env : env) (w w1 : World)
    (r : Result string ErrorRes) (query : string) (binds : list json)
    (body : json) :
  verifyAuth request env w = (r, w1) →
  filter is_query (trace (inserted (DB env) query binds body w1))
  = filter is_query (trace w) ++ [EvQuery query binds].
Proof.
  intros Hauth. destruct (verifyAuth_frame _ _ _ _ _ Hauth) as [_ Hq].
  unfold inserted. simpl. by rewrite filter_app, Hq.
Qed.

Lemma inserted_validated (db : D1Database) (query : string) (binds : list json)
    (body : json) (w1 : World) :
  {| store := (db (store (validated body w1)) query binds).2;
     trace := trace (validated body w1) ++ [EvQuery query binds] |}
  = inserted db query binds body w1.
Proof. unfold inserted, validated, log. simpl. by rewrite <- !app_assoc. Qed.

(** POST /swimmers with valid credentials and a body the schema accepts
    sends one statement, the INSERT bound to the body's name and
    graduating_year in that order; the answer is 201 "Swimmer added"
    when the engine takes it and 500 with the InternalDatabase text when
    it refuses. *)
Theorem post_swimmers_insert (request : Request) (env : env) (w w1 : World)
    (email : string) (o : list (string * json)) (s : Swimmer.t) :
  method request = "POST" →
  URL_pathname (url request) = Ok "/swimmers" →
  verifyAuth request env w = (Ok email, w1) →
  body_json request = Ok (JObj o) →
  swimmer_of o s →
  let binds := [JStr (Swimmer.name s); JNum (Swimmer.graduating_year s)] in
  let outcome := DB env (store w1) sql_post_swimmers binds in
  let w2 := inserted (DB env) sql_post_swimmers binds (JObj o) w1 in
  filter is_query (trace w2)
  = filter is_query (trace w) ++ [EvQuery sql_post_swimmers binds]
  ∧ (∀ result, outcome.1 = Ok result →
       ∃ response,
         fetch request env w = (Returned response, w2)
         ∧ res_status response = 201%Z
         ∧ res_body response = Some (BText "Swimmer added"))
  ∧ (∀ e, outcome.1 = Err e →
       ∃ response,
         fetch request env w = (Returned response, w2)
         ∧ res_status response = 500%Z
         ∧ res_body response
           = Some (BText ("InternalDatabase: Swimmers database insertion failed: "
                          +:+ JSON_stringify_error e))).
Proof.
  intros Hm Hurl Hauth Hbody Hs binds outcome w2.
  assert (safeParse swimmerSchema (JObj o) = Ok s) as Hparse
    by (apply swimmerSchema_iff; eauto).
  assert (handler request env w
          = (match outcome.1 with
             | Ok _ => Ok (VResponse
                 (new_Response (Some (BText "Swimmer added")) (Some 201%Z) []))
             | Err e => Err (insert_failed "Swimmers" e)
             end, w2)) as Hh.
  { rewrite (handler_POST _ _ _ _ POST_swimmers Hm Hurl routes_POST_swimmers).
    unfold POST_swimmers.
    rewrite (chain_valid _ _ _ _ _ _ _ _ _ _ Hauth Hbody Hparse).
    unfold mapAsync. rewrite queryDB_eq, inserted_validated.
    fold binds w2. unfold validated, log. simpl. fold outcome.
    by destruct (outcome.1). }
  split; [by apply (inserted_queries _ _ _ _ _ _ _ _ Hauth) |]. split.
  - intros result Hok. rewrite Hok in Hh.
    destruct (fetch_response _ _ _ _ _ Hh) as (response & Hf & Hst & Hb & _).
    exists response. by rewrite Hst, Hb.
  - intros e Herr. rewrite Herr in Hh.
    destruct (fetch_error _ _ _ _ _ Hh) as (response & Hf & Hst & Hb).
    exists response. by rewrite Hst, Hb.
Qed.

(** POST /relays with valid credentials and a body the schema accepts
    sends one statement, the INSERT bound to the body's time,
    relay_type and four record ids in that order, the ids as they were
    given; the answer is 201 "Relay added" when the engine takes it and
    500 with the InternalDatabase text when it refuses. *)
Theorem post_relays_insert (request : Request) (env : env) (w w1 : World)
    (email : string) (o : list (string * json)) (r : Relay.t) :
  method request = "POST" →
  URL_pathname (url request) = Ok "/relays" →
  verifyAuth request env w = (Ok email, w1) →
  body_json request = Ok (JObj o) →
  relay_of o r →
  let binds :=
    [ JNum (Relay.time r); JStr (Relay.relay_type r);
      JNum (Relay.record_1_id r); JNum (Relay.record_2_id r);
      JNum (Relay.record_3_id r); JNum (Relay.record_4_id r) ] in
  let outcome := DB env (store w1) sql_post_relays binds in
  let w2 := inserted (DB env) sql_post_relays binds (JObj o) w1 in
  filter is_query (trace w2)
  = filter is_query (trace w) ++ [EvQuery sql_post_relays binds]
  ∧ (∀ result, outcome.1 = Ok result →
       ∃ response,
         fetch request env w = (Returned response, w2)
         ∧ res_status response = 201%Z
         ∧ res_body response = Some (BText "Relay added"))
  ∧ (∀ e, outcome.1 = Err e →
       ∃ response,
         fetch request env w = (Returned response, w2)
         ∧ res_status response = 500%Z
         ∧ res_body response
           = Some (BText ("InternalDatabase: Relays database insertion failed: "
                          +:+ JSON_stringify_error e))).
Proof.
  intros Hm Hurl Hauth Hbody Hr binds outcome w2.
  assert (safeParse relaySchema (JObj o) = Ok r) as Hparse
    by (apply relaySchema_iff; eauto).
  assert (handler request env w
          = (match outcome.1 with
             | Ok _ => Ok (VResponse
                 (new_Response (Some (BText "Relay added")) (Some 201%Z) []))
             | Err e => Err (insert_failed "Relays" e)
             end, w2)) as Hh.
  { rewrite (handler_POST _ _ _ _ POST_relays Hm Hurl routes_POST_relays).
    unfold POST_relays.
    rewrite (chain_valid _ _ _ _ _ _ _ _ _ _ Hauth Hbody Hparse).
    unfold mapAsync. rewrite queryDB_eq, inserted_validated.
    fold binds w2. unfold validated, log. simpl. fold outcome.
    by destruct (outcome.1). }
  split; [by apply (inserted_queries _ _ _ _ _ _ _ _ Hauth) |]. split.
  - intros result Hok. rewrite Hok in Hh.
    destruct (fetch_response _ _ _ _ _ Hh) as (response & Hf & Hst & Hb & _).
    exists response. by rewrite Hst, Hb.
  - intros e Herr. rewrite Herr in Hh.
    destruct (fetch_error _ _ _ _ _ Hh) as (response & Hf & Hst & Hb).
    exists response. by rewrite Hst, Hb.
Qed.

(** POST /meets with valid credentials and a body the schema accepts
    sends one statement, the INSERT bound to the body's name, location
    and date in that order; when the engine refuses it the answer is 500
    with the InternalDatabase text. *)
Theorem post_meets_insert (request : Request) (env : env) (w w1 : World)
    (email : string) (o : list (string * json)) (m : Meet.t) :
  method request = "POST" →
  URL_pathname (url request) = Ok "/meets" →
  verifyAuth request env w = (Ok email, w1) →
  body_json request = Ok (JObj o) →
  meet_of o m →
  let binds := [JStr (Meet.name m); JStr (Meet.location m); JNum (Meet.date m)] in
  let outcome := DB env (store w1) sql_post_meets binds in
  let w2 := inserted (DB env) sql_post_meets binds (JObj o) w1 in
  (handler request env w).2 = w2
  ∧ filter is_query (trace w2)
    = filter is_query (trace w) ++ [EvQuery sql_post_meets binds]
  ∧ (∀ e, outcome.1 = Err e →
       ∃ response,
         fetch request env w = (Returned response, w2)
         ∧ res_status response = 500%Z
         ∧ res_body response
           = Some (BText ("InternalDatabase: Meet database insertion failed: "
                          +:+ JSON_stringify_error e))).
Proof.
  intros Hm Hurl Hauth Hbody Hmeet binds outcome w2.
  assert (safeParse meetSchema (JObj o) = Ok m) as Hparse
    by (apply meetSchema_iff; eauto).
  assert (handler request env w
          = (match outcome.1 with
             | Ok result => Ok (VD1Result result)
             | Err e => Err (insert_failed "Meet" e)
             end, w2)) as Hh.
  { rewrite (handler_POST _ _ _ _ POST_meets Hm Hurl routes_POST_meets).
    unfold POST_meets.
    rewrite (chain_valid _ _ _ _ _ _ _ _ _ _ Hauth Hbody Hparse).
    unfold mapAsync. rewrite queryDB_eq, inserted_validated.
    fold binds w2. unfold validated, log. simpl. fold outcome.
    by destruct (outcome.1). }
  split; [by rewrite Hh |].
  split; [by apply (inserted_queries _ _ _ _ _ _ _ _ Hauth) |].
  intros e Herr. rewrite Herr in Hh.
  destruct (fetch_error _ _ _ _ _ Hh) as (response & Hf & Hst & Hb).
  exists response. by rewrite Hst, Hb.
Qed.

(** A POST to a write route that reads a body, with valid credentials
    and a body that is no JSON, ends in MalformedRequest (400) with the
    text of the parse failure; nothing is validated, no statement is
    sent and the store is as before. *)
Theorem unparsable_body_is_rejected (request : Request) (env : env)
    (w w1 : World) (email pathname : string) (e : JsError) :
  method request = "POST" →
  URL_pathname (url request) = Ok pathname →
  pathname ∈ body_paths →
  verifyAuth request env w = (Ok email, w1) →
  body_json request = Err e →
  let w2 := log EvRequestJson w1 in
  handler request env w = (Err (unparsable_body e), w2)
  ∧ store w2 = store w
  ∧ filter is_query (trace w2) = filter is_query (trace w)
  ∧ ∃ response,
      fetch request env w = (Returned response, w2)
      ∧ res_status response = 400%Z
      ∧ res_body response
        = Some (BText ("MalformedRequest: Failed to parse request JSON: "
                       +:+ JSON_stringify_error e)).
Proof.
  intros Hm Hurl Hp Hauth Hbody w2.
  assert (handler request env w = (Err (unparsable_body e), w2)) as Hh.
  { unfold body_paths in Hp. rewrite !elem_of_cons, elem_of_nil in Hp.
    destruct Hp as [-> | [-> | [-> | [-> | []]]]].
    - rewrite (handler_POST _ _ _ _ POST_meets Hm Hurl routes_POST_meets).
      unfold POST_meets, andThen at 1 2.
      by rewrite Hauth, getAndParseRequestJSON_eq, Hbody.
    - rewrite (handler_POST _ _ _ _ POST_records Hm Hurl routes_POST_records).
      unfold POST_records, andThen at 1 2.
      by rewrite Hauth, getAndParseRequestJSON_eq, Hbody.
    - rewrite (handler_POST _ _ _ _ POST_swimmers Hm Hurl routes_POST_swimmers).
      unfold POST_swimmers, andThen at 1 2.
      by rewrite Hauth, getAndParseRequestJSON_eq, Hbody.
    - rewrite (handler_POST _ _ _ _ POST_relays Hm Hurl routes_POST_relays).
      unfold POST_relays, andThen at 1 2.
      by rewrite Hauth, getAndParseRequestJSON_eq, Hbody. }
  destruct (verifyAuth_frame _ _ _ _ _ Hauth) as [Hs Hq].
  split; [exact Hh |]. split; [exact Hs |].
  split; [unfold w2; by rewrite filter_log |].
  destruct (fetch_error _ _ _ _ _ Hh) as (response & Hf & Hst & Hb).
  exists response. by rewrite Hst, Hb.
Qed.

(** ** The pipeline as a whole *)

Lemma routes_lookup_Some (key : string) (route : Route) :
  routes !! key = Some route → (key, route) ∈ route_table.
Proof. unfold routes. apply elem_of_list_to_map_2. Qed.

(** The four ways [handler] can go. *)
Lemma handler_cases (request : Request) (env : env) (w : World) :
  (∃ e, handler request env w
        = (Err (Errors.MalformedRequest ("Invalid URL: " +:+ String_of_error e)), w))
  ∨ handler request env w = (Ok (VResponse preflight), w)
  ∨ (∃ key, handler request env w = (Err (not_found key), w))
  ∨ (∃ pathname route,
       URL_pathname (url request) = Ok pathname
       ∧ (method request +:+ " " +:+ pathname, route) ∈ route_table
       ∧ handler request env w = route request env w).
Proof.
  destruct (URL_pathname (url request)) as [pathname | e] eqn:Hurl.
  - destruct (decide (method request = "OPTIONS")) as [Hm | Hm].
    + right. left. by apply (handler_OPTIONS _ _ _ pathname).
    + rewrite (handler_lookup _ _ _ pathname) by done.
      destruct (routes !! _) as [route |] eqn:Hr.
      * do 3 right. exists pathname, route.
        split; [done |]. split; [by apply routes_lookup_Some | done].
      * right. right. left. eauto.
  - left. exists e. unfold handler. by rewrite Hurl.
Qed.

Lemma trace_log2 (e1 e2 : event) (w : World) :
  trace (log e2 (log e1 w)) = trace w ++ [e1; e2].
Proof. unfold log. simpl. by rewrite <- app_assoc. Qed.

Lemma verifyAuth_traces (request : Request) (env : env) :
  traces auth_events (verifyAuth request env).
Proof.
  intros w. unfold auth_events.
  destruct (headers request !! "Authorization") as [h |] eqn:Hh.
  - destruct (String.prefix "Bearer " h) eqn:Hp.
    + rewrite (verifyAuth_bearer _ _ _ h Hh Hp).
      destruct (net_get (tokeninfo_url h)) as [[j | e] | e].
      * exists [EvFetch (tokeninfo_url h); EvSafeParse j].
        split; [| by eauto].
        destruct (safeParse googleTokenSchema j) as [payload | issues].
        -- rewrite checkPayload_verdict. apply trace_log2.
        -- apply trace_log2.
      * exists [EvFetch (tokeninfo_url h)]. split; [done | eauto].
      * exists [EvFetch (tokeninfo_url h)]. split; [done | eauto].
    + exists []. rewrite verifyAuth_no_bearer; [by rewrite app_nil_r; auto |].
      intros h' Hh'. rewrite Hh in Hh'. by injection Hh' as <-.
  - exists []. rewrite verifyAuth_no_bearer; [by rewrite app_nil_r; auto |].
    intros h' Hh'. by rewrite Hh in Hh'.
Qed.

Lemma parse_traces {T} (request : Request) (schema : ZodSchema T)
    (errFunc : string → ErrorRes) :
  traces body_events (getAndParseRequestJSON request schema errFunc None).
Proof.
  intros w. rewrite getAndParseRequestJSON_eq. unfold body_events.
  destruct (body_json request) as [body | e].
  - exists [EvRequestJson; EvSafeParse body]. split; [apply trace_log2 | eauto].
  - exists [EvRequestJson]. split; [done | eauto].
Qed.

Lemma query_traces {T} (db : D1Database) (query : string)
    (errFunc : option (string → ErrorRes)) (binds : option (list json))
    (f : json → T) :
  traces query_events (queryDB db query errFunc binds <&> f).
Proof.
  intros w. exists [EvQuery query (default [] binds)]. unfold query_events.
  split; [| eauto].
  unfold mapAsync, queryDB, fromPromise, D1_all.
  by destruct (db (store w) query (default [] binds)) as [[res | e] s].
Qed.

Lemma chain_traces {T U} (request : Request) (env : env) (schema : ZodSchema T)
    (errFunc : string → ErrorRes) (k : T → ResultAsync U) :
  (∀ x, traces query_events (k x)) →
  traces pipeline_trace
    (verifyAuth request env
     >>= (λ _, getAndParseRequestJSON request schema errFunc None)
     >>= k).
Proof.
  intros Hk w. unfold andThen, pipeline_trace.
  destruct (verifyAuth_traces request env w) as (auth & Ha & Hauth).
  destruct (verifyAuth request env w) as [[email | e] w1]; simpl in Ha.
  - destruct (parse_traces request schema errFunc w1) as (body & Hb & Hbody).
    destruct (getAndParseRequestJSON request schema errFunc None w1)
      as [[x | e] w2]; simpl in Hb.
    + destruct (Hk x w2) as (query & Hq & Hquery).
      exists (auth ++ body ++ query). rewrite Hq, Hb, Ha.
      split; [by rewrite <- !app_assoc |]. by exists auth, body, query.
    + exists (auth ++ body ++ []). simpl. rewrite Hb, Ha.
      split; [by rewrite app_nil_r, <- !app_assoc |].
      exists auth, body, []. unfold query_events. auto.
  - exists (auth ++ [] ++ []). simpl. rewrite Ha.
    split; [by rewrite app_nil_r |].
    exists auth, [], []. unfold body_events, query_events. auto.
Qed.

Lemma route_traces (request : Request) (env : env) (key : string) (route : Route) :
  (key, route) ∈ route_table → traces pipeline_trace (route request env).
Proof.
  assert (∀ sql, traces pipeline_trace
            (queryDB (DB env) sql None None <&> jsonResponse)) as Hget.
  { intros sql w. destruct (query_traces (DB env) sql None None jsonResponse w)
      as (query & Hq & Hquery).
    exists query. split; [exact Hq |]. exists [], [], query.
    unfold auth_events, body_events. auto. }
  unfold route_table. rewrite !elem_of_cons, elem_of_nil.
  intros [H | [H | [H | [H | [H | [H | [H | [H | [H | [H | []]]]]]]]]]];
    injection H as -> ->; try apply Hget.
  - apply chain_traces. intros x. apply query_traces.
  - apply chain_traces. intros x. apply query_traces.
  - apply chain_traces. intros x. apply query_traces.
  - intros w. unfold POST_verify, mapAsync.
    destruct (verifyAuth_traces request env w) as (auth & Ha & Hauth).
    exists auth. split; [by destruct (verifyAuth request env w) as [[?|?] ?] |].
    exists auth, [], []. rewrite app_nil_r.
    unfold body_events, query_events. auto.
  - apply chain_traces. intros x. apply query_traces.
Qed.

Lemma pipeline_counts (events : list event) :
  pipeline_trace events →
  (length (filter is_query events) ≤ 1)%nat
  ∧ (length (filter is_body_read events) ≤ 1)%nat.
Proof.
  intros (auth & body & query & -> & Ha & Hb & Hq).
  destruct Ha as [-> | [[u ->] | (u & j & ->)]];
    destruct Hb as [-> | [-> | [j' ->]]];
    destruct Hq as [-> | (q & b & ->)]; simpl; split; lia.
Qed.

(** Every request goes through the stages in one order: at most one
    call to the identity provider and the validation of its answer,
    then at most one reading of the body and its validation, then at
    most one statement.  So no request sends two statements, reads the
    body twice, or touches the store before it has authenticated and
    validated. *)
Theorem handler_pipeline (request : Request) (env : env) (w : World) :
  ∃ events,
    trace (handler request env w).2 = trace w ++ events
    ∧ pipeline_trace events
    ∧ (length (filter is_query events) ≤ 1)%nat
    ∧ (length (filter is_body_read events) ≤ 1)%nat.
Proof.
  assert (∃ events, trace (handler request env w).2 = trace w ++ events
                    ∧ pipeline_trace events) as (events & He & Hp).
  { assert (pipeline_trace []) as Hnil.
    { exists [], [], []. unfold auth_events, body_events, query_events. auto. }
    destruct (handler_cases request env w)
      as [[e ->] | [-> | [[key ->] | (pathname & route & _ & Hin & ->)]]];
      try (exists []; by rewrite app_nil_r).
    apply (route_traces request env _ route Hin). }
  exists events. split; [exact He |]. split; [exact Hp |].
  by apply pipeline_counts.
Qed.

Ltac kind := unfold of_kind, error_kinds; simpl; repeat constructor.

Lemma verifyAuth_outcome (request : Request) (env : env) (w : World) :
  outcome_ok (λ _, True) (verifyAuth request env w).1.
Proof.
  destruct (headers request !! "Authorization") as [h |] eqn:Hh.
  - destruct (String.prefix "Bearer " h) eqn:Hp.
    + rewrite (verifyAuth_bearer _ _ _ h Hh Hp).
      destruct (net_get (tokeninfo_url h)) as [[j | e] | e];
        [| simpl; kind | simpl; kind].
      destruct (safeParse googleTokenSchema j) as [payload | issues];
        [| simpl; kind].
      rewrite checkPayload_verdict. unfold verdict.
      destruct (first_failure (business_checks env) payload); simpl; [kind | done].
    + rewrite verifyAuth_no_bearer; [simpl; kind |].
      intros h' Hh'. rewrite Hh in Hh'. by injection Hh' as <-.
  - rewrite verifyAuth_no_bearer; [simpl; kind |].
    intros h' Hh'. by rewrite Hh in Hh'.
Qed.

Lemma parse_outcome {T} (request : Request) (schema : ZodSchema T)
    (prefix : string) (w : World) :
  outcome_ok (λ _, True)
    (getAndParseRequestJSON request schema
       (λ errMsg, Errors.MalformedRequest (prefix +:+ errMsg)) None w).1.
Proof.
  rewrite getAndParseRequestJSON_eq.
  destruct (body_json request) as [body | e]; simpl; [| kind].
  destruct (safeParse schema body); simpl; [done | kind].
Qed.

Lemma insert_outcome {T} (db : D1Database) (query prefix : string)
    (binds : list json) (f : json → T) (good : T → Prop) (w : World) :
  (∀ res, good (f res)) →
  outcome_ok good
    ((queryDB db query
        (Some (λ e, Errors.InternalDatabase (prefix +:+ e))) (Some binds)
      <&> f) w).1.
Proof.
  intros Hgood. unfold mapAsync. rewrite queryDB_eq.
  destruct ((db (store w) query binds).1); simpl; [apply Hgood | kind].
Qed.

Lemma chain_outcome {T U} (request : Request) (env : env) (schema : ZodSchema T)
    (prefix : string) (k : T → ResultAsync U) (good : U → Prop) (w : World) :
  (∀ x w', outcome_ok good (k x w').1) →
  outcome_ok good
    ((verifyAuth request env
      >>= (λ _, getAndParseRequestJSON request schema
                  (λ errMsg, Errors.MalformedRequest (prefix +:+ errMsg)) None)
      >>= k) w).1.
Proof.
  intros Hk. unfold andThen.
  pose proof (verifyAuth_outcome request env w) as Ha.
  destruct (verifyAuth request env w) as [[email | e] w1]; [| exact Ha].
  pose proof (parse_outcome request schema prefix w1) as Hb.
  destruct (getAndParseRequestJSON _ _ _ _ w1) as [[x | e] w2]; [| exact Hb].
  apply Hk.
Qed.

Lemma select_outcome (db : D1Database) (sql : string) (w : World) :
  outcome_ok good_response ((queryDB db sql None None <&> jsonResponse) w).1.
Proof.
  rewrite select_route.
  destruct ((db (store w) sql []).1); simpl; [repeat constructor | kind].
Qed.

(** The outcome of every route but POST /meets is a response of status
    200 or 201, or an error of a known kind; the outcome of POST /meets
    is an error of a known kind or some value. *)
Lemma route_outcome (request : Request) (env : env) (w : World)
    (key : string) (route : Route) :
  (key, route) ∈ route_table →
  outcome_ok (λ v, key ≠ "POST /meets" → good_response v) (route request env w).1.
Proof.
  assert (∀ {T} (good good' : T → Prop) (r : Result T ErrorRes),
            (∀ v, good v → good' v) → outcome_ok good r → outcome_ok good' r)
    as Hmono.
  { intros T good good' [v | e] Himp; simpl; [apply Himp | done]. }
  unfold route_table. rewrite !elem_of_cons, elem_of_nil.
  intros [H | [H | [H | [H | [H | [H | [H | [H | [H | [H | []]]]]]]]]]];
    injection H as -> ->;
    try (apply (Hmono _ good_response); [auto | apply select_outcome]).
  - apply chain_outcome. intros x w'. apply insert_outcome. by intros res [].
  - apply (Hmono _ good_response); [auto |].
    apply chain_outcome. intros x w'. apply insert_outcome.
    intros res. simpl. repeat constructor.
  - apply (Hmono _ good_response); [auto |].
    apply chain_outcome. intros x w'. apply insert_outcome.
    intros res. simpl. repeat constructor.
  - apply (Hmono _ good_response); [auto |]. unfold POST_verify, mapAsync.
    pose proof (verifyAuth_outcome request env w) as Ha.
    destruct (verifyAuth request env w) as [[email | e] w1]; [| exact Ha].
    simpl. repeat constructor.
  - apply (Hmono _ good_response); [auto |].
    apply chain_outcome. intros x w'. apply insert_outcome.
    intros res. simpl. repeat constructor.
Qed.

(** Whatever the request, an error [handler] ends in is of one of the
    six kinds of ./errors, with the status of its kind. *)
Theorem handler_errors_are_of_kind (request : Request) (env : env) (w : World)
    (error : ErrorRes) :
  (handler request env w).1 = Err error →
  (Errors.name error, Errors.status error)
  ∈ [ ("MalformedRequest", 400%Z); ("Unauthorized", 401%Z); ("NotFound", 404%Z);
      ("NoResponse", NoResponse_status); ("MalformedResponse", 502%Z);
      ("InternalDatabase", 500%Z) ].
Proof.
  destruct (handler_cases request env w)
    as [[e ->] | [-> | [[key ->] | (pathname & route & _ & Hin & ->)]]].
  - intros [= <-]. kind.
  - done.
  - intros [= <-]. kind.
  - pose proof (route_outcome request env w _ route Hin) as Ho.
    intros Herr. rewrite Herr in Ho. exact Ho.
Qed.

(** Every request whose key is not ["POST /meets"] gets a response from
    the boundary, with the three CORS headers and a status among 200,
    201, 204, 400, 401, 404, 500, 502 and that of NoResponse. *)
Theorem fetch_answers_outside_post_meets (request : Request) (env : env)
    (w : World) :
  (∀ pathname, URL_pathname (url request) = Ok pathname →
               method request +:+ " " +:+ pathname ≠ "POST /meets") →
  ∃ response,
    (fetch request env w).1 = Returned response
    ∧ has_cors response
    ∧ res_status response ∈ statuses.
Proof.
  intros Hkey.
  assert (outcome_ok good_response (handler request env w).1) as Ho.
  { destruct (handler_cases request env w)
      as [[e ->] | [-> | [[key ->] | (pathname & route & Hurl & Hin & ->)]]];
      simpl; try kind.
    pose proof (route_outcome request env w _ route Hin) as Ho.
    destruct ((route request env w).1) as [v | e]; simpl in *; [| exact Ho].
    apply Ho. by apply Hkey. }
  unfold fetch. destruct (handler request env w) as [[[r | d] | e] w1];
    simpl in Ho; [| done |].
  - destruct (withCors_response r) as (r' & -> & Hs & _ & Hc).
    exists r'. split; [done |]. split; [exact Hc |]. rewrite Hs.
    unfold statuses. rewrite !elem_of_cons in Ho. rewrite !elem_of_cons.
    destruct Ho as [-> | [-> | [-> | Ho]]]; [tauto | tauto | tauto |].
    by apply elem_of_nil in Ho.
  - match goal with |- context [withCors (VResponse ?r)] =>
      destruct (withCors_response r) as (r' & -> & Hs & _ & Hc) end.
    exists r'. split; [done |]. split; [exact Hc |]. rewrite Hs. simpl.
    unfold of_kind, error_kinds in Ho. unfold statuses.
    rewrite !elem_of_cons, elem_of_nil in Ho. rewrite !elem_of_cons.
    destruct Ho as [H | [H | [H | [H | [H | [H | []]]]]]];
      injection H as _ ->; tauto.
Qed.

Lemma andThen_assoc {A B C} (m : ResultAsync A) (f : A → ResultAsync B)
    (g : B → ResultAsync C) (w : World) :
  (m >>= f >>= g) w = (m >>= (λ x, f x >>= g)) w.
Proof. unfold andThen. by destruct (m w) as [[x | e] w1]. Qed.

Lemma guarded_chain {U} (request : Request) (env : env)
    (k : string → ResultAsync U) (w : World) :
  filter is_query (trace ((verifyAuth request env >>= k) w).2)
  ≠ filter is_query (trace w) →
  ∃ w1, verifyAuth request env w = (Ok "ryanyun2010@gmail.com", w1).
Proof.
  unfold andThen. destruct (verifyAuth request env w) as [[email | e] w1] eqn:Ha.
  - intros _. exists w1.
    pose proof Ha as (h & j & p & _ & _ & _ & _ & Hadm & _)%verifyAuth_Ok.
    by destruct Hadm as (_ & _ & _ & _ & _ & ->).
  - destruct (verifyAuth_frame _ _ _ _ _ Ha) as [_ Hq]. simpl. by rewrite Hq.
Qed.

(** A POST request sends a statement to the database only after
    [verifyAuth] has given the allowed address: if the trace of
    statements has grown, authentication succeeded. *)
Theorem post_statement_needs_admin (request : Request) (env : env) (w : World) :
  method request = "POST" →
  filter is_query (trace (handler request env w).2) ≠ filter is_query (trace w) →
  ∃ w1, verifyAuth request env w = (Ok "ryanyun2010@gmail.com", w1).
Proof.
  intros Hm.
  destruct (handler_cases request env w)
    as [[e ->] | [-> | [[key ->] | (pathname & route & _ & Hin & ->)]]];
    try done.
  rewrite Hm in Hin.
  change ("POST" +:+ " " +:+ pathname) with ("POST " +:+ pathname) in Hin.
  unfold route_table in Hin. rewrite !elem_of_cons, elem_of_nil in Hin.
  destruct Hin as [H | [H | [H | [H | [H | [H | [H | [H | [H | [H | []]]]]]]]]]];
    try discriminate H; injection H as _ ->.
  - unfold POST_meets. rewrite andThen_assoc. apply guarded_chain.
  - unfold POST_records. rewrite andThen_assoc. apply guarded_chain.
  - unfold POST_swimmers. rewrite andThen_assoc. apply guarded_chain.
  - unfold POST_verify, mapAsync. intros Hq. apply (guarded_chain request env
      (λ email, okAsync (VResponse (verified email))) w).
    unfold andThen, okAsync.
    by destruct (verifyAuth request env w) as [[email | e] w1].
  - unfold POST_relays. rewrite andThen_assoc. apply guarded_chain.
Qed.

(** ** Batches and the url *)

Lemma nonvoid_both {A B C} (f : A → B → C) (ra : Result A (list ZodIssue))
    (rb : Result B (list ZodIssue)) :
  nonvoid ra → nonvoid rb → nonvoid (both f ra rb).
Proof.
  unfold nonvoid. destruct ra as [a | [| i ea]], rb as [b | [| i' eb]]; simpl; done.
Qed.

Lemma nonvoid_at_path {T} (seg : path_segment) (r : Result T (list ZodIssue)) :
  nonvoid r → nonvoid (at_path seg r).
Proof. unfold nonvoid. by destruct r as [x | [| i e]]. Qed.

Lemma nonvoid_with_key {A B} (sh : Shape (A → B)) (key : string)
    (schema : ZodSchema A) (o : list (string * json)) :
  nonvoid (sh o) → (∀ v, nonvoid (schema v)) → nonvoid (with_key sh key schema o).
Proof. intros Hsh Hs. by apply nonvoid_both, nonvoid_at_path. Qed.

Lemma nonvoid_check {T} (holds : T → bool) (msg : string) (schema : ZodSchema T)
    (v : option json) :
  nonvoid (schema v) → nonvoid (check holds msg schema v).
Proof.
  unfold nonvoid, check. destruct (schema v) as [x | e]; [| done].
  by destruct (holds x).
Qed.

Lemma nonvoid_z_number (v : option json) : nonvoid (z_number v).
Proof. unfold nonvoid, z_number. by destruct v as [[| | | | |] |]. Qed.

Lemma nonvoid_z_enum (options : list string) (v : option json) :
  nonvoid (z_enum options v).
Proof.
  unfold nonvoid, z_enum. destruct v as [[| | | s | |] |]; try done.
  by destruct (bool_decide (s ∈ options)).
Qed.

(** The issues of an invalid element are reported under its index. *)
Lemma z_array_from_invalid {T} (schema : ZodSchema T) (start : nat)
    (items : list json) (i : nat) (item : json) (issue : ZodIssue) :
  items !! i = Some item →
  issue ∈ issues_of (schema (Some item)) →
  under (PIndex (start + i)) issue ∈ issues_of (z_array_from schema start items).
Proof.
  revert start i. induction items as [| x items IH]; intros start i Hi Hin; [done |].
  simpl. rewrite issues_of_both, issues_of_at_path, elem_of_app.
  destruct i as [| i].
  - injection Hi as ->. left. rewrite Nat.add_0_r. by apply list_elem_of_fmap_2.
  - right. replace (start + S i) with (S start + i) by lia. by apply IH.
Qed.

(** One element that is no record makes the record schema refuse the
    whole batch, and among the issues reported there is one whose path
    starts with the index of that element. *)
Theorem invalid_record_rejects_batch (items : list json) (i : nat) (item : json) :
  items !! i = Some item →
  (∀ r, ¬ record_of item r) →
  ∃ issues issue,
    safeParse recordSchema (JArr items) = Err issues
    ∧ issue ∈ issues
    ∧ head (path issue) = Some (PIndex i).
Proof.
  intros Hi Hno.
  assert (∀ r, safeParse recordSchema (JArr [item]) ≠ Ok [r]) as Hone.
  { intros r (items' & [= <-] & HF)%recordSchema_iff.
    apply Forall2_cons_1 in HF as [Hr _]. by apply (Hno r). }
  revert Hone. unfold safeParse, recordSchema, z_array.
  match goal with |- context [z_array_from ?s 0 [item]] => set (elem := s) end.
  intros Hone.
  assert (∀ v, nonvoid (elem v)) as Hsound.
  { intros v. unfold elem, z_object. destruct v as [[| | | | |o] |]; try done.
    repeat apply nonvoid_with_key; try done; intros v';
      repeat (apply nonvoid_check || apply nonvoid_z_number
              || apply nonvoid_z_enum). }
  clearbody elem. simpl in Hone.
  destruct (elem (Some item)) as [r | [| issue rest]] eqn:Helem.
  - by destruct (Hone r).
  - by destruct (Hsound (Some item)).
  - pose proof (z_array_from_invalid elem 0 items i item issue Hi) as Hin.
    rewrite Helem in Hin. specialize (Hin (list_elem_of_here _ _)).
    destruct (z_array_from elem 0 items) as [xs | issues]; [by apply elem_of_nil in Hin |].
    exists issues, (under (PIndex (0 + i)) issue). by split.
Qed.

(** A request whose url the URL constructor refuses ends in
    MalformedRequest (400) whatever its method, OPTIONS included, before
    any route is looked up and with nothing run. *)
Theorem invalid_url_is_rejected (request : Request) (env : env) (w : World)
    (e : JsError) :
  URL_pathname (url request) = Err e →
  handler request env w = (Err (bad_url e), w)
  ∧ ∃ response,
      fetch request env w = (Returned response, w)
      ∧ res_status response = 400%Z
      ∧ res_body response
        = Some (BText ("MalformedRequest: Invalid URL: " +:+ String_of_error e))
      ∧ has_cors response.
Proof.
  intros Hurl.
  assert (handler request env w = (Err (bad_url e), w)) as Hh
    by (unfold handler; by rewrite Hurl).
  split; [exact Hh |].
  destruct (fetch_error _ _ _ _ _ Hh) as (response & Hf & Hs & Hb).
  exists response. split; [exact Hf |]. rewrite Hs, Hb. split; [done |].
  split; [done |]. by apply (fetch_returned_has_cors _ _ _ _ _ Hf).
Qed.

End Properties.

(** * The worker on explicit requests *)

#[local] Existing Instance Demo.platform.

Lemma admin_is_verified (method path : string) (body : Result json string) :
  verifyAuth (Demo.request method path (Some "admin") body) Demo.environment
             Demo.start
  = (Ok Demo.admin_email, Demo.authenticated).
Proof. reflexivity. Qed.

(** C2 on a POST /records that carries no Authorization header. *)
Lemma write_route_without_bearer_witness :
  let request := Demo.request "POST" "/records" None (Ok (JArr [])) in
  handler request Demo.environment Demo.start
  = (Err (Errors.Unauthorized "No Authorization header"), Demo.start)
  ∧ ∃ response,
      fetch request Demo.environment Demo.start = (Returned response, Demo.start)
      ∧ res_status response = 401%Z
      ∧ res_body response = Some (BText "Unauthorized: No Authorization header").
Proof.
  apply (write_route_without_bearer
           (Demo.request "POST" "/records" None (Ok (JArr [])))
           Demo.environment Demo.start "/records").
  - reflexivity.
  - reflexivity.
  - apply (bool_decide_unpack _). vm_compute. exact I.
  - intros h Hh. vm_compute in Hh. discriminate Hh.
Defined.

(** C7 on GET /meets/ (a trailing slash) and on OPTIONS /anything. *)
Lemma handler_dispatch_witness :
  handler (Demo.request "GET" "/meets/" None (Ok JNull)) Demo.environment Demo.start
  = (Err (not_found "GET /meets/"), Demo.start)
  ∧ handler (Demo.request "OPTIONS" "/anything" None (Ok JNull))
            Demo.environment Demo.start
    = (Ok (VResponse preflight), Demo.start).
Proof.
  split.
  - apply (handler_dispatch (Demo.request "GET" "/meets/" None (Ok JNull))
             Demo.environment Demo.start "/meets/").
    + reflexivity.
    + vm_compute. discriminate.
    + apply (bool_decide_unpack _). vm_compute. exact I.
  - apply (handler_dispatch (Demo.request "OPTIONS" "/anything" None (Ok JNull))
             Demo.environment Demo.start "/anything").
    + reflexivity.
    + reflexivity.
Defined.

(** C3 on a token whose audience is another client and whose email is
    not verified. *)
Lemma verifyAuth_first_failing_check_witness :
  let request := Demo.request "POST" "/verify" (Some "stranger") (Ok JNull) in
  (verifyAuth request Demo.environment Demo.start).1
  = Err (Errors.Unauthorized "Authorization Token gave Incorrect Audience").
Proof.
  pose proof
    (verifyAuth_first_failing_check
       (Demo.request "POST" "/verify" (Some "stranger") (Ok JNull))
       Demo.environment Demo.start "Bearer stranger"
       (Demo.claims "another-client" "false" 1700003600)
       (Demo.payload_of "another-client" "false" 1700003600)
       eq_refl eq_refl eq_refl eq_refl) as (_ & _ & H).
  simpl. rewrite H.
  - reflexivity.
  - vm_compute. discriminate.
  - vm_compute. discriminate.
Defined.

(** C4 on a token that expires exactly now, 1700000000 seconds being
    1700000000000 milliseconds as rationals and as doubles: it is
    accepted. *)
Lemma expiry_equal_is_accepted :
  let request := Demo.request "POST" "/verify" (Some "edge") (Ok JNull) in
  let payload := Demo.payload_of Demo.client_id "true" 1700000000 in
  safeParse googleTokenSchema (Demo.claims Demo.client_id "true" 1700000000) = Ok payload
  ∧ (GoogleToken.exp payload * inject_Z 1000 == inject_Z Date_now)%Q
  ∧ SFcompare (expiry_millis payload) clock = Some Eq
  ∧ (verifyAuth request Demo.environment Demo.start).1 = Ok Demo.admin_email
  ∧ (verifyAuth request Demo.environment Demo.start).1
    ≠ Err (Errors.Unauthorized "Token expired").
Proof.
  split; [reflexivity |]. split; [reflexivity |]. split; [reflexivity |].
  split; [reflexivity |]. vm_compute. discriminate.
Qed.

(** C4, as the code has it, one millisecond later, on a token whose
    [exp] times 1000 is below the clock as a real number and equal to it
    once rounded: it is accepted. *)
Lemma expiry_check_boundary_witness :
  (GoogleToken.exp Demo.rounded_payload * inject_Z 1000
   < inject_Z (@Date_now Demo.later))%Q
  ∧ (@verifyAuth Demo.later (Demo.later_verify "rounded") Demo.later_environment
       Demo.later_start).1
    = Ok Demo.admin_email.
Proof.
  split; [reflexivity |].
  pose proof
    (@expiry_check_boundary Demo.later
       (Demo.later_verify "rounded") Demo.later_environment Demo.later_start
       "Bearer rounded" Demo.rounded_claims Demo.rounded_payload
       eq_refl eq_refl eq_refl eq_refl eq_refl) as (_ & H & _).
  destruct H as [H _].
  - vm_compute. reflexivity.
  - rewrite H. reflexivity.
Defined.

(** C5 on a meet with an empty name and a date that is no integer: both
    fields are reported. *)
Lemma zodParseWith_reports_every_issue_witness :
  let body := Demo.meet_body EmptyString (3 # 2) in
  let message := "name: Name is required; date: Date must be an integer" in
  zodParseWith meetSchema Errors.MalformedRequest body Demo.start
  = (Err (Errors.MalformedRequest message), log (EvSafeParse body) Demo.start)
  ∧ occurs_in "name: Name is required" message
  ∧ occurs_in "date: Date must be an integer" message.
Proof.
  pose proof
    (zodParseWith_reports_every_issue meetSchema Errors.MalformedRequest
       (Demo.meet_body EmptyString (3 # 2)) Demo.start) as (_ & _ & H & _).
  destruct (H [ mkIssue [PKey "name"] "Name is required";
                mkIssue [PKey "date"] "Date must be an integer" ] eq_refl)
    as (Hrun & _ & Hocc).
  split; [exact Hrun |]. split.
  - apply (Hocc (mkIssue [PKey "name"] "Name is required")). constructor.
  - apply (Hocc (mkIssue [PKey "date"] "Date must be an integer")).
    do 2 constructor.
Defined.

(** C6 on a batch of two records. *)
Lemma post_records_one_insert_witness :
  let request := Demo.request "POST" "/records" (Some "admin") (Ok Demo.two_records) in
  ∃ response w2,
    fetch request Demo.environment Demo.start = (Returned response, w2)
    ∧ res_status response = 201%Z
    ∧ store w2 = [(Demo.two_records_insert, Demo.two_records_values)]
    ∧ filter is_query (trace w2) = [EvQuery Demo.two_records_insert Demo.two_records_values].
Proof.
  pose proof
    (post_records_one_insert
       (Demo.request "POST" "/records" (Some "admin") (Ok Demo.two_records))
       Demo.environment Demo.start Demo.authenticated Demo.admin_email Demo.two_records
       [ SwimRecord.mk 1 1 "50_free" "individual" "flat" 25;
         SwimRecord.mk 1 1 "50_free" "individual" "flat" (51 # 2) ]
       eq_refl eq_refl eq_refl eq_refl eq_refl) as H.
  destruct H as (_ & Hq & _ & _ & Hok); [discriminate |].
  destruct (Hok (JObj [("success", JBool true)]) eq_refl) as (response & Hf & Hs).
  exists response. eexists. split; [exact Hf |]. split; [exact Hs |].
  split; [reflexivity | exact Hq].
Defined.

(** C8 on the batch whose only record has time -1. *)
Lemma invalid_body_is_rejected_witness :
  let request :=
    Demo.request "POST" "/records" (Some "admin") (Ok (JArr [Demo.record_body (-1)])) in
  let message :=
    "Given invalid record data: 0.time: Number must be greater than 0" in
  ∃ w2,
    handler request Demo.environment Demo.start
    = (Err (Errors.MalformedRequest message), w2)
    ∧ occurs_in "0.time" message
    ∧ store w2 = store Demo.start
    ∧ filter is_query (trace w2) = [].
Proof.
  pose proof
    (invalid_body_is_rejected
       (Demo.request "POST" "/records" (Some "admin") (Ok (JArr [Demo.record_body (-1)])))
       Demo.environment Demo.start Demo.authenticated Demo.admin_email "/records"
       (JArr [Demo.record_body (-1)])
       [mkIssue [PIndex 0; PKey "time"] "Number must be greater than 0"]
       eq_refl eq_refl eq_refl eq_refl eq_refl) as (Hh & _ & _ & Hocc & Hs & Hq & _).
  eexists. split; [exact Hh |]. split; [| split; [exact Hs | exact Hq]].
  apply (Hocc (mkIssue [PIndex 0; PKey "time"] "Number must be greater than 0")).
  constructor.
Defined.

(** C10 on the empty batch: the engine of the example takes the
    statement, and the answer is 201. *)
Lemma post_records_empty_batch_witness :
  let request := Demo.request "POST" "/records" (Some "admin") (Ok (JArr [])) in
  ∃ response w2,
    fetch request Demo.environment Demo.start = (Returned response, w2)
    ∧ store w2 = [(Demo.no_records_insert, [])]
    ∧ res_status response ≠ 400%Z.
Proof.
  pose proof
    (post_records_empty_batch
       (Demo.request "POST" "/records" (Some "admin") (Ok (JArr [])))
       Demo.environment Demo.start Demo.authenticated Demo.admin_email
       eq_refl eq_refl eq_refl eq_refl) as (_ & _ & _ & response & Hf & _ & Hs).
  exists response. eexists. split; [exact Hf |]. split; [reflexivity | exact Hs].
Defined.

(** C1.  POST /meets with the admin token and a valid meet: the insert
    is done, the chain resolves with the result of the statement, which
    is no response and has no status 201, and the boundary throws. *)
Theorem post_meets_success_is_no_response :
  let body := Demo.meet_body "Nueva Invitational" 20240101 in
  let request := Demo.request "POST" "/meets" (Some "admin") (Ok body) in
  let binds := [JStr "Nueva Invitational"; JStr "Pool"; JNum 20240101] in
  let w2 :=
    mkWorld [(sql_post_meets, binds)]
      (trace Demo.authenticated
       ++ [EvRequestJson; EvSafeParse body; EvQuery sql_post_meets binds]) in
  (verifyAuth request Demo.environment Demo.start).1 = Ok Demo.admin_email
  ∧ isOk (safeParse meetSchema body) = true
  ∧ handler request Demo.environment Demo.start
    = (Ok (VD1Result (JObj [("success", JBool true)])), w2)
  ∧ fetch request Demo.environment Demo.start = (Thrown "TypeError", w2).
Proof. repeat split; reflexivity. Qed.

(** C9.  On the same request the boundary returns no response at all,
    so none that carries the CORS headers. *)
Theorem post_meets_success_returns_nothing :
  let request :=
    Demo.request "POST" "/meets" (Some "admin")
      (Ok (Demo.meet_body "Nueva Invitational" 20240101)) in
  ∀ response w2,
    fetch request Demo.environment Demo.start ≠ (Returned response, w2).
Proof.
  intros request response w2 H.
  assert ((fetch request Demo.environment Demo.start).1 = Thrown "TypeError")
    as Hthrown by reflexivity.
  rewrite H in Hthrown. discriminate Hthrown.
Qed.

(** A token the provider does not know: its error object has no [iss],
    and the outcome is MalformedResponse. *)
Lemma verifyAuth_provider_failures_witness :
  let request := Demo.request "POST" "/verify" (Some "nobody") (Ok JNull) in
  ∃ issues w1,
    verifyAuth request Demo.environment Demo.start
    = (Err (invalid_payload issues), w1)
    ∧ occurs_in "iss: Expected string" (Errors.message (invalid_payload issues)).
Proof.
  pose proof
    (verifyAuth_provider_failures
       (Demo.request "POST" "/verify" (Some "nobody") (Ok JNull))
       Demo.environment Demo.start "Bearer nobody" eq_refl eq_refl)
    as (_ & _ & _ & H).
  destruct (H Demo.provider_error "iss" eq_refl) as (issues & Hv & Ho).
  - apply (bool_decide_unpack _). vm_compute. exact I.
  - intros s Hs. vm_compute in Hs. discriminate Hs.
  - exists issues. eexists. split; [exact Hv | exact Ho].
Defined.

(** A token for another client, on POST /records. *)
Lemma auth_failure_ends_write_route_witness :
  let request :=
    Demo.request "POST" "/records" (Some "stranger") (Ok Demo.two_records) in
  ∃ response w1,
    fetch request Demo.environment Demo.start = (Returned response, w1)
    ∧ res_status response = 401%Z
    ∧ store w1 = [].
Proof.
  pose proof
    (auth_failure_ends_write_route
       (Demo.request "POST" "/records" (Some "stranger") (Ok Demo.two_records))
       Demo.environment Demo.start
       (mkWorld []
          [ EvFetch (Demo.tokeninfo +:+ "stranger");
            EvSafeParse (Demo.claims "another-client" "false" 1700003600) ])
       "/records"
       (Errors.Unauthorized "Authorization Token gave Incorrect Audience")
       eq_refl eq_refl) as H.
  destruct H as (_ & Hs & _ & _ & response & Hf & Hst & _).
  - apply (bool_decide_unpack _). vm_compute. exact I.
  - reflexivity.
  - exists response. eexists. split; [exact Hf |]. split; [exact Hst | exact Hs].
Defined.

(** ["Bearer admin extra"]: the token is ["admin"]. *)
Lemma bearer_token_is_first_word_witness :
  let request := Demo.request "GET" "/" (Some "admin extra") (Ok JNull) in
  header_value "Bearer admin extra"
  ∧ ∃ events,
      trace (verifyAuth request Demo.environment Demo.start).2
      = EvFetch "https://oauth2.googleapis.com/tokeninfo?id_token=admin" :: events.
Proof.
  assert (header_value "Bearer admin extra") as Hv by (split; reflexivity).
  split; [exact Hv |].
  pose proof
    (bearer_token_is_first_word
       (Demo.request "GET" "/" (Some "admin extra") (Ok JNull))
       Demo.environment Demo.start "Bearer admin extra" eq_refl Hv) as (H & _).
  destruct (H "admin" " extra" eq_refl eq_refl) as (_ & events & He).
  - right. by exists "extra".
  - exists events. exact He.
Defined.

(** GET /meets without credentials. *)
Lemma get_route_one_select_witness :
  let request := Demo.request "GET" "/meets" None (Ok JNull) in
  ∃ response w1,
    fetch request Demo.environment Demo.start = (Returned response, w1)
    ∧ res_status response = 200%Z
    ∧ res_body response = Some (BJson (JObj [("success", JBool true)]))
    ∧ store w1 = [(sql_get_meets, [])].
Proof.
  pose proof
    (get_route_one_select (Demo.request "GET" "/meets" None (Ok JNull))
       Demo.environment Demo.start "/meets" sql_get_meets
       eq_refl eq_refl eq_refl) as (H & _).
  destruct (H (JObj [("success", JBool true)]) eq_refl)
    as (response & Hf & Hs & Hb & _).
  exists response. eexists. split; [exact Hf |]. split; [exact Hs |].
  split; [exact Hb | reflexivity].
Defined.

(** POST /verify with the admin token. *)
Lemma post_verify_only_authenticates_witness :
  let request := Demo.request "POST" "/verify" (Some "admin") (Ok JNull) in
  ∃ response,
    fetch request Demo.environment Demo.start
    = (Returned response, Demo.authenticated)
    ∧ res_status response = 200%Z.
Proof.
  pose proof
    (post_verify_only_authenticates
       (Demo.request "POST" "/verify" (Some "admin") (Ok JNull))
       Demo.environment Demo.start eq_refl eq_refl) as (H & _).
  destruct (H Demo.admin_email Demo.authenticated eq_refl)
    as (_ & response & Hf & Hs & _).
  exists response. split; [exact Hf | exact Hs].
Defined.

(** POST /swimmers with a body that has one key too many. *)
Lemma post_swimmers_insert_witness :
  let request :=
    Demo.request "POST" "/swimmers" (Some "admin") (Ok Demo.swimmer_body) in
  ∃ response w2,
    fetch request Demo.environment Demo.start = (Returned response, w2)
    ∧ res_status response = 201%Z
    ∧ store w2 = [(sql_post_swimmers, [JStr "Ada"; JNum 2027])].
Proof.
  destruct (proj1 (swimmerSchema_iff Demo.swimmer_body (Swimmer.mk "Ada" 2027))
              eq_refl) as (o & Ho & Hsw).
  injection Ho as <-.
  pose proof
    (post_swimmers_insert
       (Demo.request "POST" "/swimmers" (Some "admin") (Ok Demo.swimmer_body))
       Demo.environment Demo.start Demo.authenticated Demo.admin_email
       _ (Swimmer.mk "Ada" 2027) eq_refl eq_refl eq_refl eq_refl Hsw)
    as (_ & H & _).
  destruct (H (JObj [("success", JBool true)]) eq_refl) as (response & Hf & Hs & _).
  exists response. eexists. split; [exact Hf |]. split; [exact Hs | reflexivity].
Defined.

(** POST /relays. *)
Lemma post_relays_insert_witness :
  let request :=
    Demo.request "POST" "/relays" (Some "admin") (Ok Demo.relay_body) in
  ∃ response w2,
    fetch request Demo.environment Demo.start = (Returned response, w2)
    ∧ res_status response = 201%Z
    ∧ store w2
      = [(sql_post_relays,
          [JNum (1057 # 10); JStr "200_fr"; JNum 11; JNum 12; JNum 13; JNum 14])].
Proof.
  destruct (proj1 (relaySchema_iff Demo.relay_body
                     (Relay.mk (1057 # 10) "200_fr" 11 12 13 14))
              eq_refl) as (o & Ho & Hr).
  injection Ho as <-.
  pose proof
    (post_relays_insert
       (Demo.request "POST" "/relays" (Some "admin") (Ok Demo.relay_body))
       Demo.environment Demo.start Demo.authenticated Demo.admin_email
       _ (Relay.mk (1057 # 10) "200_fr" 11 12 13 14)
       eq_refl eq_refl eq_refl eq_refl Hr)
    as (_ & H & _).
  destruct (H (JObj [("success", JBool true)]) eq_refl) as (response & Hf & Hs & _).
  exists response. eexists. split; [exact Hf |]. split; [exact Hs | reflexivity].
Defined.

(** POST /meets: the statement and its values. *)
Lemma post_meets_insert_witness :
  let request :=
    Demo.request "POST" "/meets" (Some "admin")
      (Ok (Demo.meet_body "Nueva Invitational" 20240101)) in
  store (handler request Demo.environment Demo.start).2
  = [(sql_post_meets, [JStr "Nueva Invitational"; JStr "Pool"; JNum 20240101])].
Proof.
  destruct (proj1 (meetSchema_iff (Demo.meet_body "Nueva Invitational" 20240101)
                     (Meet.mk "Nueva Invitational" "Pool" 20240101))
              eq_refl) as (o & Ho & Hm).
  injection Ho as <-.
  pose proof
    (post_meets_insert
       (Demo.request "POST" "/meets" (Some "admin")
          (Ok (Demo.meet_body "Nueva Invitational" 20240101)))
       Demo.environment Demo.start Demo.authenticated Demo.admin_email
       _ (Meet.mk "Nueva Invitational" "Pool" 20240101)
       eq_refl eq_refl eq_refl eq_refl Hm)
    as (H & _).
  simpl. rewrite H. reflexivity.
Defined.

(** POST /records with a body that is no JSON. *)
Lemma unparsable_body_is_rejected_witness :
  let request :=
    Demo.request "POST" "/records" (Some "admin") (Err "SyntaxError") in
  ∃ response w2,
    fetch request Demo.environment Demo.start = (Returned response, w2)
    ∧ res_status response = 400%Z
    ∧ res_body response
      = Some (BText "MalformedRequest: Failed to parse request JSON: {}")
    ∧ store w2 = [].
Proof.
  pose proof
    (unparsable_body_is_rejected
       (Demo.request "POST" "/records" (Some "admin") (Err "SyntaxError"))
       Demo.environment Demo.start Demo.authenticated Demo.admin_email
       "/records" "SyntaxError" eq_refl eq_refl) as H.
  destruct H as (_ & Hst & _ & response & Hf & Hs & Hb); try reflexivity.
  - apply (bool_decide_unpack _). vm_compute. exact I.
  - exists response. eexists. split; [exact Hf |]. split; [exact Hs |].
    split; [exact Hb | exact Hst].
Defined.

(** GET /nothing: the error is of the NotFound kind. *)
Lemma handler_errors_are_of_kind_witness :
  (Errors.name (not_found "GET /nothing"), Errors.status (not_found "GET /nothing"))
  ∈ [ ("MalformedRequest", 400%Z); ("Unauthorized", 401%Z); ("NotFound", 404%Z);
      ("NoResponse", 502%Z); ("MalformedResponse", 502%Z);
      ("InternalDatabase", 500%Z) ].
Proof.
  exact (handler_errors_are_of_kind
           (Demo.request "GET" "/nothing" None (Ok JNull))
           Demo.environment Demo.start (not_found "GET /nothing") eq_refl).
Defined.

(** GET /meets gets a response with the CORS headers. *)
Lemma fetch_answers_outside_post_meets_witness :
  let request := Demo.request "GET" "/meets" None (Ok JNull) in
  ∃ response,
    (fetch request Demo.environment Demo.start).1 = Returned response
    ∧ has_cors response.
Proof.
  destruct (fetch_answers_outside_post_meets
              (Demo.request "GET" "/meets" None (Ok JNull))
              Demo.environment Demo.start) as (response & Hf & Hc & _).
  - intros pathname Hp. vm_compute in Hp. injection Hp as <-.
    vm_compute. discriminate.
  - exists response. split; [exact Hf | exact Hc].
Defined.

(** The statement of a batch of two records follows the verification of
    the admin's token. *)
Lemma post_statement_needs_admin_witness :
  let request :=
    Demo.request "POST" "/records" (Some "admin") (Ok Demo.two_records) in
  ∃ w1, verifyAuth request Demo.environment Demo.start
        = (Ok "ryanyun2010@gmail.com", w1).
Proof.
  apply (post_statement_needs_admin
           (Demo.request "POST" "/records" (Some "admin") (Ok Demo.two_records))
           Demo.environment Demo.start eq_refl).
  vm_compute. discriminate.
Defined.

(** A batch whose second record has time -1. *)
Lemma invalid_record_rejects_batch_witness :
  ∃ issues issue,
    safeParse recordSchema (JArr [Demo.record_body 25; Demo.record_body (-1)])
    = Err issues
    ∧ issue ∈ issues
    ∧ head (path issue) = Some (PIndex 1).
Proof.
  apply (invalid_record_rejects_batch
           [Demo.record_body 25; Demo.record_body (-1)] 1 (Demo.record_body (-1))
           eq_refl).
  intros r (o & Ho & _ & _ & _ & _ & _ & _ & _ & _ & _ & _ & Ht & Hpos).
  injection Ho as <-. simpl in Ht. injection Ht as Ht. rewrite <- Ht in Hpos.
  revert Hpos. vm_compute. discriminate.
Defined.

(** A url that is no url. *)
Lemma invalid_url_is_rejected_witness :
  let request := mkRequest "OPTIONS" "nonsense" ∅ (Ok JNull) in
  ∃ response,
    fetch request Demo.environment Demo.start = (Returned response, Demo.start)
    ∧ res_status response = 400%Z.
Proof.
  destruct (invalid_url_is_rejected (mkRequest "OPTIONS" "nonsense" ∅ (Ok JNull))
              Demo.environment Demo.start "TypeError: Invalid URL" eq_refl)
    as (_ & response & Hf & Hs & _).
  exists response. split; [exact Hf | exact Hs].
Defined.
